(** * tiny-xvl: determinant kernels, the fixed-size matrix facade and the
    convex-hull pipeline built on them.

    Sources embedded here:
    - [vxl/vnl/vnl_det.h]          the 2x2, 3x3 and 4x4 row-pointer
                                   determinants and the [vnl_matrix_fixed]
                                   overloads;
    - [vxl/vnl/vnl_matrix_fixed.h] [operator[]] and element access of the
                                   row-major fixed-size matrix;
    - [vxl/vgl/tests/test_convex.cpp] the recorded hull scenario.

    The element type [T] of the templates is an arbitrary ring; it is taken
    commutative where a statement needs it, and totally ordered where signs
    are compared. *)

From Stdlib Require Import String Lia.
From HB Require Import structures.
From mathcomp Require Import boot order algebra.

Set Implicit Arguments.
Unset Strict Implicit.
Unset Printing Implicit Defensive.

Import GRing.Theory Num.Theory Order.Theory.
Local Open Scope ring_scope.

(** ** Row-pointer kernels of [vnl_det.h]

    A [T const*] argument is modelled by the array it points to, a [seq T];
    [row[i]] is [row`_i] (that is [nth 0 row i]).  The kernels never test a
    length: the caller guarantees that each row is long enough. *)

Section RowKernels.

Variable T : pzRingType.

(** [template <class T> T vnl_det(T const *row0, T const *row1)] *)
Definition vnl_det_2 (row0 row1 : seq T) : T :=
  row0`_0 * row1`_1 - row0`_1 * row1`_0.

(** [template <class T> T vnl_det(T const *row0, T const *row1, T const *row2)]
    (the leading unary [+] of the source is the identity). *)
Definition vnl_det_3 (row0 row1 row2 : seq T) : T :=
    row0`_0 * row1`_1 * row2`_2
  - row0`_0 * row2`_1 * row1`_2
  - row1`_0 * row0`_1 * row2`_2
  + row1`_0 * row2`_1 * row0`_2
  + row2`_0 * row0`_1 * row1`_2
  - row2`_0 * row1`_1 * row0`_2.

(** [template <class T> T vnl_det(T const *row0, T const *row1,
                                  T const *row2, T const *row3)] *)
Definition vnl_det_4 (row0 row1 row2 row3 : seq T) : T :=
    row0`_0 * row1`_1 * row2`_2 * row3`_3
  - row0`_0 * row1`_1 * row3`_2 * row2`_3
  - row0`_0 * row2`_1 * row1`_2 * row3`_3
  + row0`_0 * row2`_1 * row3`_2 * row1`_3
  + row0`_0 * row3`_1 * row1`_2 * row2`_3
  - row0`_0 * row3`_1 * row2`_2 * row1`_3
  - row1`_0 * row0`_1 * row2`_2 * row3`_3
  + row1`_0 * row0`_1 * row3`_2 * row2`_3
  + row1`_0 * row2`_1 * row0`_2 * row3`_3
  - row1`_0 * row2`_1 * row3`_2 * row0`_3
  - row1`_0 * row3`_1 * row0`_2 * row2`_3
  + row1`_0 * row3`_1 * row2`_2 * row0`_3
  + row2`_0 * row0`_1 * row1`_2 * row3`_3
  - row2`_0 * row0`_1 * row3`_2 * row1`_3
  - row2`_0 * row1`_1 * row0`_2 * row3`_3
  + row2`_0 * row1`_1 * row3`_2 * row0`_3
  + row2`_0 * row3`_1 * row0`_2 * row1`_3
  - row2`_0 * row3`_1 * row1`_2 * row0`_3
  - row3`_0 * row0`_1 * row1`_2 * row2`_3
  + row3`_0 * row0`_1 * row2`_2 * row1`_3
  + row3`_0 * row1`_1 * row0`_2 * row2`_3
  - row3`_0 * row1`_1 * row2`_2 * row0`_3
  - row3`_0 * row2`_1 * row0`_2 * row1`_3
  + row3`_0 * row2`_1 * row1`_2 * row0`_3.

(** The [n] x [n] matrix whose [i]-th row is the [i]-th array of [rows]. *)
Definition rows_mx (n : nat) (rows : seq (seq T)) : 'M[T]_n :=
  \matrix_(i < n, j < n) (nth [::] rows i)`_j.

End RowKernels.

(** ** The fixed-size matrix of [vnl_matrix_fixed.h]

    [vnl_matrix_fixed<T, num_rows, num_cols>] derives from
    [Eigen::Matrix<T, num_rows, num_cols, Eigen::RowMajor>]: its storage is
    one block of [num_rows * num_cols] elements laid out row after row. *)

Section MatrixFixed.

Variable T : pzRingType.
Variables num_rows num_cols : nat.

Definition vnl_matrix_fixed : Type := (num_rows * num_cols).-tuple T.

(** [this->data()]: the storage block. *)
Definition data (m : vnl_matrix_fixed) : seq T := tval m.

(** Eigen's coefficient access [operator()(r, c)] on row-major storage, which
    [get] returns. *)
Definition get (m : vnl_matrix_fixed) (r c : nat) : T :=
  (data m)`_(r * num_cols + c).

(** [T const * operator[] (unsigned r) const { return this->row(r).data(); }]
    The pointer to the first element of row [r]: what is read through it is
    the storage block from offset [r * num_cols] on.  No boundary check. *)
Definition operator_index (m : vnl_matrix_fixed) (r : nat) : seq T :=
  drop (r * num_cols) (data m).

(** The contents of row [r], element by element. *)
Definition matrix_row (m : vnl_matrix_fixed) (r : nat) : seq T :=
  mkseq (get m r) num_cols.

(** The matrix seen as a mathematical [num_rows] x [num_cols] matrix. *)
Definition to_mx (m : vnl_matrix_fixed) : 'M[T]_(num_rows, num_cols) :=
  \matrix_(i, j) get m i j.

End MatrixFixed.

(** ** The [vnl_matrix_fixed] overloads of [vnl_det] *)

Section FixedOverloads.

Variable T : pzRingType.

(** [vnl_det(vnl_matrix_fixed<T,1,1> const& m) { return m[0][0]; }] *)
Definition vnl_det_1x1 (m : vnl_matrix_fixed T 1 1) : T :=
  (operator_index m 0)`_0.

(** [vnl_det(vnl_matrix_fixed<T,2,2> const& m)
      { return vnl_det(m[0],m[1]); }] *)
Definition vnl_det_2x2 (m : vnl_matrix_fixed T 2 2) : T :=
  vnl_det_2 (operator_index m 0) (operator_index m 1).

(** [vnl_det(vnl_matrix_fixed<T,3,3> const& m)
      { return vnl_det(m[0],m[1],m[2]); }] *)
Definition vnl_det_3x3 (m : vnl_matrix_fixed T 3 3) : T :=
  vnl_det_3 (operator_index m 0) (operator_index m 1) (operator_index m 2).

(** [vnl_det(vnl_matrix_fixed<T,4,4> const& m)
      { return vnl_det(m[0],m[1],m[2],m[3]); }] *)
Definition vnl_det_4x4 (m : vnl_matrix_fixed T 4 4) : T :=
  vnl_det_4 (operator_index m 0) (operator_index m 1)
            (operator_index m 2) (operator_index m 3).

End FixedOverloads.

(** ** The kernels as readers of memory

    The same three kernels with their pointers kept as addresses: a
    computation takes the memory and returns its value together with the
    memory it leaves behind, so that what a call reads and what it writes are
    both visible.  [row[i]] is a [load]; the operators evaluate their operands
    from left to right and thread the memory through them. *)

Module Mem.
Section Readers.

Variable T : pzRingType.

(** Cells of type [T] by address, addresses, and computations on a memory. *)
Definition memory : Type := nat -> T.
Definition pointer : Type := nat.
Definition comp (A : Type) : Type := memory -> A * memory.

Definition ret (A : Type) (x : A) : comp A := fun s => (x, s).

Definition bind (A B : Type) (c : comp A) (k : A -> comp B) : comp B :=
  fun s => let: (x, s') := c s in k x s'.

(** [p[i]] for a [T const *p]. *)
Definition load (p : pointer) (i : nat) : comp T :=
  fun s => (s (p + i)%N, s).

(** A binary operator of [T] applied to two computed operands. *)
Definition lift2 (op : T -> T -> T) (x y : comp T) : comp T :=
  bind x (fun a => bind y (fun b => ret (op a b))).

(** The [n] cells a row pointer gives access to. *)
Definition row_at (s : memory) (p : pointer) (n : nat) : seq T :=
  mkseq (fun i => s (p + i)%N) n.

Local Notation "p .@[ i ]" := (load p i) (at level 2, format "p .@[ i ]").
Local Notation "x *! y" := (lift2 *%R x y) (at level 40, left associativity).
Local Notation "x +! y" := (lift2 +%R x y) (at level 50, left associativity).
Local Notation "x -! y" := (lift2 (fun a b => a - b) x y)
  (at level 50, left associativity).

(** [vnl_det(T const *row0, T const *row1)] *)
Definition vnl_det_2 (row0 row1 : pointer) : comp T :=
  row0.@[0] *! row1.@[1] -! row0.@[1] *! row1.@[0].

(** [vnl_det(T const *row0, T const *row1, T const *row2)] *)
Definition vnl_det_3 (row0 row1 row2 : pointer) : comp T :=
     row0.@[0] *! row1.@[1] *! row2.@[2]
  -! row0.@[0] *! row2.@[1] *! row1.@[2]
  -! row1.@[0] *! row0.@[1] *! row2.@[2]
  +! row1.@[0] *! row2.@[1] *! row0.@[2]
  +! row2.@[0] *! row0.@[1] *! row1.@[2]
  -! row2.@[0] *! row1.@[1] *! row0.@[2].

(** [vnl_det(T const *row0, T const *row1, T const *row2, T const *row3)] *)
Definition vnl_det_4 (row0 row1 row2 row3 : pointer) : comp T :=
     row0.@[0] *! row1.@[1] *! row2.@[2] *! row3.@[3]
  -! row0.@[0] *! row1.@[1] *! row3.@[2] *! row2.@[3]
  -! row0.@[0] *! row2.@[1] *! row1.@[2] *! row3.@[3]
  +! row0.@[0] *! row2.@[1] *! row3.@[2] *! row1.@[3]
  +! row0.@[0] *! row3.@[1] *! row1.@[2] *! row2.@[3]
  -! row0.@[0] *! row3.@[1] *! row2.@[2] *! row1.@[3]
  -! row1.@[0] *! row0.@[1] *! row2.@[2] *! row3.@[3]
  +! row1.@[0] *! row0.@[1] *! row3.@[2] *! row2.@[3]
  +! row1.@[0] *! row2.@[1] *! row0.@[2] *! row3.@[3]
  -! row1.@[0] *! row2.@[1] *! row3.@[2] *! row0.@[3]
  -! row1.@[0] *! row3.@[1] *! row0.@[2] *! row2.@[3]
  +! row1.@[0] *! row3.@[1] *! row2.@[2] *! row0.@[3]
  +! row2.@[0] *! row0.@[1] *! row1.@[2] *! row3.@[3]
  -! row2.@[0] *! row0.@[1] *! row3.@[2] *! row1.@[3]
  -! row2.@[0] *! row1.@[1] *! row0.@[2] *! row3.@[3]
  +! row2.@[0] *! row1.@[1] *! row3.@[2] *! row0.@[3]
  +! row2.@[0] *! row3.@[1] *! row0.@[2] *! row1.@[3]
  -! row2.@[0] *! row3.@[1] *! row1.@[2] *! row0.@[3]
  -! row3.@[0] *! row0.@[1] *! row1.@[2] *! row2.@[3]
  +! row3.@[0] *! row0.@[1] *! row2.@[2] *! row1.@[3]
  +! row3.@[0] *! row1.@[1] *! row0.@[2] *! row2.@[3]
  -! row3.@[0] *! row1.@[1] *! row2.@[2] *! row0.@[3]
  -! row3.@[0] *! row2.@[1] *! row0.@[2] *! row1.@[3]
  +! row3.@[0] *! row2.@[1] *! row1.@[2] *! row0.@[3].

End Readers.
End Mem.

(** ** The hull pipeline

    [vgl_convex_hull] and [vgl_polygon::contains] are called by
    [test_convex.cpp] but their code is not among the sources; the
    definitions of this part follow the specification of the hull builder
    and of the containment test, over the source's [vnl_det_2].  Coordinates
    live in a totally ordered ring [R]. *)

Section Hull.

Variable R : realDomainType.

(** Modelled from the spec: the Point of the data model ([vgl_point_2d], whose
    header is not among the sources), a pair of coordinates (x, y) compared by
    exact coordinate equality. *)
Definition Point : Type := (R * R)%type.

(** Modelled from the spec: the Polygon of the data model ([vgl_polygon], whose
    header is not among the sources), the ordered sequence of the vertices of
    a closed ring; the last vertex is joined to the first. *)
Definition Polygon : Type := seq Point.

Implicit Types (a b c p q u v : Point).

(** Modelled from the spec: the determinant behind the orientation predicate
    (the hull code that calls it is not among the sources), the 2x2
    determinant of the vectors [b - a] and [c - a], computed by the source's
    kernel. *)
Definition cross a b c : R :=
  vnl_det_2 [:: b.1 - a.1; b.2 - a.2] [:: c.1 - a.1; c.2 - a.2].

(** Modelled from the spec: [orientation(a, b, c)], absent from the sources,
    is the sign of that determinant: 1, 0 or -1. *)
Definition orientation a b c : R := Num.sg (cross a b c).

(** Modelled from the spec: the sort order of step 1 of the absent hull
    builder, by x ascending with ties broken by y ascending. *)
Definition point_le p q : bool :=
  (p.1 < q.1) || ((p.1 == q.1) && (p.2 <= q.2)).

(** Modelled from the spec: the pop rule of step 2 of the absent hull
    builder.  The stack is kept with its top first; while it holds at least
    two points and the last two with the candidate [c] do not make a strict
    left turn ([orientation <= 0]), its top is popped. *)
Fixpoint pop_while (stack : seq Point) c : seq Point :=
  match stack with
  | q :: ((p :: _) as rest) =>
      if orientation p q c <= 0 then pop_while rest c else stack
  | _ => stack
  end.

(** Modelled from the spec: one step of a scan of the absent hull builder,
    pop and then append the candidate. *)
Definition push (stack : seq Point) c : seq Point := c :: pop_while stack c.

(** Modelled from the spec: one scan of the absent hull builder over the
    points, returning the stack from bottom to top. *)
Definition chain (pts : seq Point) : seq Point := rev (foldl push [::] pts).

(** Modelled from the spec: the two chains of the absent hull builder.  The
    lower chain scans the sorted points from left to right (step 2), the upper
    chain from right to left (step 3). *)
Definition lower_chain (sorted : seq Point) : seq Point := chain sorted.
Definition upper_chain (sorted : seq Point) : seq Point := chain (rev sorted).

(** Modelled from the spec: a chain of the absent hull builder "excluding its
    last point" (step 4).  There is no such thing for an empty chain: that is
    the one step of the pipeline that can fail. *)
Definition drop_last (ch : seq Point) : option (seq Point) :=
  if ch is _ :: _ then Some (take (size ch).-1 ch) else None.

(** Modelled from the spec: [convex_hull] ([vgl_convex_hull], which the test
    calls and whose code is not among the sources).  Sort (step 1); no point
    gives the empty Polygon and points that are all equal give a single vertex
    (step 5); otherwise the lower chain without its last point is followed by
    the upper chain without its last point (steps 2 to 4).  [None] is a
    failure. *)
Definition convex_hull (points : seq Point) : option Polygon :=
  let sorted := sort point_le points in
  match sorted with
  | [::] => Some [::]
  | p :: _ =>
      if all (pred1 p) sorted then Some [:: p]
      else
        if drop_last (lower_chain sorted) is Some lower then
          if drop_last (upper_chain sorted) is Some upper then
            Some (lower ++ upper)
          else None
        else None
  end.

(** Modelled from the spec: the edges of the ring that the absent [contains]
    walks, each vertex paired with its successor and the last with the
    first. *)
Definition edges (poly : Polygon) : seq (Point * Point) :=
  zip poly (rot 1 poly).

(** Modelled from the spec: the on-boundary check of the absent [contains],
    collinearity with the edge together with the coordinate-range test. *)
Definition on_segment u v p : bool :=
  [&& orientation u v p == 0,
      Num.min u.1 v.1 <= p.1, p.1 <= Num.max u.1 v.1,
      Num.min u.2 v.2 <= p.2 & p.2 <= Num.max u.2 v.2].

(** Modelled from the spec: the crossing test of the absent [contains].  The
    edge [(u, v)] meets the horizontal ray that leaves [p] towards increasing
    x.  The comparison is exact: an upward edge is crossed when [p] lies
    strictly on its left, a downward edge when [p] lies strictly on its
    right. *)
Definition crosses p (e : Point * Point) : bool :=
  let: (u, v) := e in
  ((u.2 <= p.2) && (p.2 < v.2) && (0 < orientation u v p))
  || ((v.2 <= p.2) && (p.2 < u.2) && (orientation u v p < 0)).

(** Modelled from the spec: [contains] ([vgl_polygon::contains], which the
    test calls and whose code is not among the sources).  The degenerate
    Polygons first (none, one or two vertices); otherwise the boundary check
    on every edge, and only then the parity of the number of crossings. *)
Definition contains (poly : Polygon) p : bool :=
  match poly with
  | [::] => false
  | [:: v] => p == v
  | [:: u; v] => on_segment u v p
  | _ => has (fun e => on_segment e.1 e.2 p) (edges poly)
         || odd (count (crosses p) (edges poly))
  end.

End Hull.

(** ** Turn directions, stated without the determinant *)

Section Turns.

Variable F : realFieldType.
Implicit Types a b c : Point F.

(** [c] lies strictly on the counter-clockwise side of the directed line from
    [a] to [b]: [c - a = s (b - a) + t J(b - a)] with [t > 0], where
    [J (x, y) = (- y, x)] is the quarter turn counter-clockwise. *)
Definition left_turn a b c : Prop :=
  a <> b /\
  exists s t : F,
    [/\ 0 < t,
        c.1 - a.1 = s * (b.1 - a.1) - t * (b.2 - a.2)
      & c.2 - a.2 = s * (b.2 - a.2) + t * (b.1 - a.1)].

(** The same with [t < 0]: [c] lies strictly on the clockwise side. *)
Definition right_turn a b c : Prop :=
  a <> b /\
  exists s t : F,
    [/\ t < 0,
        c.1 - a.1 = s * (b.1 - a.1) - t * (b.2 - a.2)
      & c.2 - a.2 = s * (b.2 - a.2) + t * (b.1 - a.1)].

(** The three points lie on one line [al * x + be * y + ga = 0]. *)
Definition collinear a b c : Prop :=
  exists al be ga : F,
    [/\ (al, be) <> (0, 0),
        al * a.1 + be * a.2 + ga = 0,
        al * b.1 + be * b.2 + ga = 0
      & al * c.1 + be * c.2 + ga = 0].

End Turns.

(** ** Concrete inputs *)

(** The points of [TEST(convex, simple)], in the order of the test. *)
Definition scenario : seq (Point int) :=
  [:: (0%Z, 0%Z); (0%Z, 0%Z); (5%Z, 0%Z); (3%Z, 1%Z); (2%Z, 1%Z); (0%Z, 5%Z)].

(** Integer coordinates read in an arbitrary ordered ring. *)
Definition embed (R : realDomainType) (p : Point int) : Point R :=
  (p.1%:~R, p.2%:~R).

(** Two memories holding the same rows at different addresses. *)
Definition mem_a : Mem.memory int := fun a => a%:Z + 1.
Definition mem_b : Mem.memory int := fun a => a%:Z - 9.

(** ** Member functions of [vnl_matrix_fixed]

    The member functions that change a matrix take it and return the matrix
    they leave.  An index outside the matrix is not an error of the type
    system: what a call does with it is one of three outcomes. *)

(** The error routines of [vnl_error.h], of which the header only shows the
    calls ("Raise exception"): each carries the arguments of its call. *)
Inductive vnl_error : Type :=
  | vnl_error_matrix_row_index (fn : string) (r : nat)
  | vnl_error_matrix_col_index (fn : string) (c : nat)
  | vnl_error_matrix_dimension (fn : string) (l1 l2 r1 r2 : nat).

(** A call returns, raises one of these errors, or reads or writes a
    coefficient outside the matrix, which the source leaves undefined (an
    assertion of the matrix library at best). *)
Inductive outcome (A : Type) : Type :=
  | Done (x : A)
  | Raised (e : vnl_error)
  | Undefined.

Arguments Done {A} x.
Arguments Raised {A} e.
Arguments Undefined {A}.

Definition bind (A B : Type) (o : outcome A) (k : A -> outcome B) :
    outcome B :=
  match o with
  | Done x => k x
  | Raised e => Raised e
  | Undefined => Undefined
  end.

(** [for (unsigned i = lo; i < hi; ++i) body], on the state [acc]. *)
Fixpoint for_loop (A : Type) (i count : nat) (body : nat -> A -> outcome A)
    (acc : A) : outcome A :=
  if count is n.+1 then bind (body i acc) (for_loop i.+1 n body)
  else Done acc.

Definition for_range (A : Type) (lo hi : nat) (body : nat -> A -> outcome A)
    (acc : A) : outcome A :=
  for_loop lo (hi - lo) body acc.

(** An array of [n] elements with the element at offset [i] replaced; an
    offset outside the array replaces nothing. *)
Definition tuple_set (T : Type) (n : nat) (t : n.-tuple T) (i : nat) (v : T) :
    n.-tuple T :=
  [tuple (if (k : nat) == i then v else tnth t k) | k < n].

(** The cells of the block of [h] rows and [w] columns at [(top, left)]. *)
Definition in_block (top h left w i j : nat) : bool :=
  (top <= i < top + h)%N && (left <= j < left + w)%N.

Module Fixed.

Section Access.

Variable T : pzRingType.
Variables num_rows num_cols : nat.
Local Notation matrix := (vnl_matrix_fixed T num_rows num_cols).
Implicit Types (m : matrix) (r c : nat) (v : T).

(** [constexpr unsigned int size() const { return num_elements; }] *)
Definition size m : nat := (num_rows * num_cols)%N.

(** [constexpr unsigned int rows() const { return num_rows; }] *)
Definition rows m : nat := num_rows.

(** [constexpr unsigned int cols() const { return num_cols; }] *)
Definition cols m : nat := num_cols.

(** [bool empty() const { return num_rows==0 && num_cols==0; }] *)
Definition empty m : bool := (num_rows == 0) && (num_cols == 0).

(** The indices of the coefficients of the matrix. *)
Definition in_range r c : bool := (r < num_rows)%N && (c < num_cols)%N.

(** The storage block with the element at offset [i] replaced. *)
Definition write m (i : nat) v : matrix := tuple_set m i v.

(** The matrix whose coefficient [(r, c)] is [f r c]. *)
Definition of_fun (f : nat -> nat -> T) : matrix :=
  [tuple f (k %/ num_cols)%N (k %% num_cols)%N | k < num_rows * num_cols].

(** Reading the coefficient [operator()(r, c)]. *)
Definition coeff m r c : outcome T :=
  if in_range r c then Done (get m r c) else Undefined.

(** Writing the coefficient [operator()(r, c) = v]. *)
Definition coeff_set m r c v : outcome matrix :=
  if in_range r c then Done (write m (r * num_cols + c)%N v) else Undefined.

(** [inline void put (unsigned r, unsigned c, T const& v)], with the value of
    the macro [VNL_CONFIG_CHECK_BOUNDS] as first argument. *)
Definition put (check_bounds : bool) m r c v : outcome matrix :=
  if check_bounds && (num_rows <= r)%N then
    Raised (vnl_error_matrix_row_index "put" r)
  else if check_bounds && (num_cols <= c)%N then
    Raised (vnl_error_matrix_col_index "put" c)
  else coeff_set m r c v.

(** [inline T get (unsigned r, unsigned c) const], with the value of the
    macro [VNL_CONFIG_CHECK_BOUNDS] as first argument. *)
Definition get (check_bounds : bool) m r c : outcome T :=
  if check_bounds && (num_rows <= r)%N then
    Raised (vnl_error_matrix_row_index "get" r)
  else if check_bounds && (num_cols <= c)%N then
    Raised (vnl_error_matrix_col_index "get" c)
  else coeff m r c.

End Access.

Section Loops.

Variable T : pzRingType.

(** [this->data()[i]]: a read through the pointer to the storage block. *)
Definition data_at (num_rows num_cols : nat)
    (m : vnl_matrix_fixed T num_rows num_cols) (i : nat) : outcome T :=
  if (i < num_rows * num_cols)%N then Done (data m)`_i else Undefined.

(** [vnl_vector_fixed<T, n>], of which the matrix header uses the storage of
    [n] elements and the write [v[i] = x]. *)
Definition vnl_vector_fixed (n : nat) : Type := n.-tuple T.

Definition vector_set (n : nat) (v : vnl_vector_fixed n) (i : nat) (x : T) :
    outcome (vnl_vector_fixed n) :=
  if (i < n)%N then Done (tuple_set v i x) else Undefined.

Variables num_rows num_cols : nat.
Local Notation matrix := (vnl_matrix_fixed T num_rows num_cols).

(** [vnl_matrix_fixed<T,ncols,nrows> transpose() const].  [result] is the
    local of that name, declared without a value. *)
Definition transpose (result : vnl_matrix_fixed T num_cols num_rows)
    (this : matrix) : outcome (vnl_matrix_fixed T num_cols num_rows) :=
  for_range 0 (cols this) (fun i result =>
    for_range 0 (rows this) (fun j result =>
      bind (coeff this j i) (fun x => coeff_set result i j x)) result) result.

(** [operator*= (vnl_matrix_fixed<T,num_cols,num_cols> const& s)].  [out] is
    the local of that name, declared without a value; the matrix returned is
    the new value of the object. *)
Definition operator_mul_assign (out : matrix) (this : matrix)
    (s : vnl_matrix_fixed T num_cols num_cols) : outcome matrix :=
  for_range 0 num_rows (fun i out =>
    for_range 0 num_cols (fun j out =>
      bind (data_at this (i * num_cols)) (fun a0 =>
      bind (coeff s 0 j) (fun s0 =>
      bind (for_range 1 num_cols (fun k accum =>
              bind (data_at this (i * num_cols + k)) (fun a =>
              bind (coeff s k j) (fun b => Done (accum + a * b))))
            (a0 * s0)) (fun accum =>
      coeff_set out i j accum)))) out) out.

(** [flatten_row_major() const]: [std::copy] fills the whole of the local
    [v] with the storage block. *)
Definition flatten_row_major (v : vnl_vector_fixed (num_rows * num_cols))
    (this : matrix) : outcome (vnl_vector_fixed (num_rows * num_cols)) :=
  Done this.

(** [flatten_column_major() const] *)
Definition flatten_column_major (v : vnl_vector_fixed (num_rows * num_cols))
    (this : matrix) : outcome (vnl_vector_fixed (num_rows * num_cols)) :=
  for_range 0 num_cols (fun c v =>
    for_range 0 num_rows (fun r v =>
      bind (coeff this r c) (fun x => vector_set v (c * num_rows + r) x)) v) v.

End Loops.

Section Update.

Variable T : pzRingType.
Variables num_rows num_cols : nat.
Local Notation matrix := (vnl_matrix_fixed T num_rows num_cols).

(** The number of values of [unsigned int], which the language leaves to
    the implementation; [top + m.rows()] is computed modulo that number. *)
Variable uint_range : nat.

Definition uadd (a b : nat) : nat := (a + b) %% uint_range.

(** The body that the two overloads of [update] share.  [ndebug] tells
    whether the macro [NDEBUG] is defined; [m_rows], [m_cols] and [m_at]
    stand for [m.rows()], [m.cols()] and the read [m(i, j)]. *)
Definition update_body (ndebug : bool) (this : matrix) (m_rows m_cols : nat)
    (m_at : nat -> nat -> outcome T) (top left : nat) : outcome matrix :=
  let bottom := uadd top m_rows in
  let right := uadd left m_cols in
  if ~~ ndebug && ((num_rows < bottom)%N || (num_cols < right)%N) then
    Raised (vnl_error_matrix_dimension "update" bottom right m_rows m_cols)
  else
    for_range top bottom (fun i this =>
      for_range left right (fun j this =>
        bind (m_at (i - top)%N (j - left)%N) (fun x => coeff_set this i j x))
        this) this.

(** [update (vnl_matrix_fixed<T,nrows,ncols> const& m,
             unsigned top, unsigned left)] *)
Definition update_fixed (ndebug : bool) (this m : matrix) (top left : nat) :
    outcome matrix :=
  update_body ndebug this (rows m) (cols m) (coeff m) top left.

(** [vnl_matrix<T>], whose header is not among the sources, is a parameter:
    a type with its [rows()], its [cols()] and the value of its coefficient
    [(i, j)]. *)
Variable vnl_matrix : Type.
Variables vm_rows vm_cols : vnl_matrix -> nat.
Variable vm_get : vnl_matrix -> nat -> nat -> T.

(** The read [m(i, j)] of a [vnl_matrix]. *)
Definition vm_coeff (m : vnl_matrix) (i j : nat) : outcome T :=
  if (i < vm_rows m)%N && (j < vm_cols m)%N then Done (vm_get m i j)
  else Undefined.

(** [update (vnl_matrix<T> const& m, unsigned top, unsigned left)] *)
Definition update (ndebug : bool) (this : matrix) (m : vnl_matrix)
    (top left : nat) : outcome matrix :=
  update_body ndebug this (vm_rows m) (vm_cols m) (vm_coeff m) top left.

End Update.

End Fixed.

(** ** The helper routines for arithmetic, on memory

    The static helpers of [vnl_matrix_fixed] take raw pointers, and the
    operators call them with the storage blocks of their operands: the output
    block may be one of the input blocks.  They are embedded on the memory of
    [Mem], extended with writes.  A fixed-size matrix of the matrix library
    is small (it is refused above 128 KB), so that [nrows*ncols] does not
    overflow [unsigned int]. *)

Module Helpers.

Section Routines.

Variable T : pzRingType.
Local Notation memory := (Mem.memory T).
Local Notation pointer := Mem.pointer.
Local Notation comp := (Mem.comp T).

(** [*p = v] *)
Definition store (p : pointer) (v : T) : comp unit :=
  fun s => (tt, fun a => if a == p then v else s a).

(** [while ( count-- ) *(r++) = *(a++) op *(b++);] *)
Fixpoint loop_pp (op : T -> T -> T) (count : nat) (a b r : pointer) :
    comp unit :=
  if count is n.+1 then
    Mem.bind (Mem.load a 0) (fun x =>
    Mem.bind (Mem.load b 0) (fun y =>
    Mem.bind (store r (op x y)) (fun _ =>
    loop_pp op n a.+1 b.+1 r.+1)))
  else Mem.ret tt.

(** [while ( count-- ) *(r++) = *(a++) op b;] *)
Fixpoint loop_ps (op : T -> T -> T) (count : nat) (a : pointer) (b : T)
    (r : pointer) : comp unit :=
  if count is n.+1 then
    Mem.bind (Mem.load a 0) (fun x =>
    Mem.bind (store r (op x b)) (fun _ =>
    loop_ps op n a.+1 b r.+1))
  else Mem.ret tt.

(** [while ( count-- ) *(r++) = a op *(b++);] *)
Fixpoint loop_sp (op : T -> T -> T) (count : nat) (a : T) (b : pointer)
    (r : pointer) : comp unit :=
  if count is n.+1 then
    Mem.bind (Mem.load b 0) (fun y =>
    Mem.bind (store r (op a y)) (fun _ =>
    loop_sp op n a b.+1 r.+1))
  else Mem.ret tt.

(** [while ( count-- ) if ( *(a++) != *(b++) ) return false; return true;] *)
Fixpoint equal_loop (count : nat) (a b : pointer) : comp bool :=
  if count is n.+1 then
    Mem.bind (Mem.load a 0) (fun x =>
    Mem.bind (Mem.load b 0) (fun y =>
    if x != y then Mem.ret false else equal_loop n a.+1 b.+1))
  else Mem.ret true.

Variables nrows ncols : nat.

(** [static void add( const T* a, const T* b, T* r )] *)
Definition add_pp (a b r : pointer) : comp unit :=
  loop_pp +%R (nrows * ncols) a b r.

(** [static void add( const T* a, T b, T* r )] *)
Definition add_ps (a : pointer) (b : T) (r : pointer) : comp unit :=
  loop_ps +%R (nrows * ncols) a b r.

(** [static void sub( const T* a, const T* b, T* r )] *)
Definition sub_pp (a b r : pointer) : comp unit :=
  loop_pp (fun x y => x - y) (nrows * ncols) a b r.

(** [static void sub( const T* a, T b, T* r )] *)
Definition sub_ps (a : pointer) (b : T) (r : pointer) : comp unit :=
  loop_ps (fun x y => x - y) (nrows * ncols) a b r.

(** [static void sub( T a, const T* b, T* r )] *)
Definition sub_sp (a : T) (b : pointer) (r : pointer) : comp unit :=
  loop_sp (fun x y => x - y) (nrows * ncols) a b r.

(** [static void mul( const T* a, const T* b, T* r )] *)
Definition mul_pp (a b r : pointer) : comp unit :=
  loop_pp *%R (nrows * ncols) a b r.

(** [static void mul( const T* a, T b, T* r )] *)
Definition mul_ps (a : pointer) (b : T) (r : pointer) : comp unit :=
  loop_ps *%R (nrows * ncols) a b r.

(** [static bool equal( const T* a, const T* b )] *)
Definition equal (a b : pointer) : comp bool :=
  equal_loop (nrows * ncols) a b.

(** The operators, on the addresses of the storage blocks of the matrices
    ([this->data()], [m.data()]); [r] is the address of the local [r]. *)

(** [vnl_matrix_fixed& operator+= (vnl_matrix_fixed const& m)] *)
Definition operator_add_assign (this m : pointer) : comp unit :=
  add_pp this m this.


(** [vnl_matrix_fixed operator- () const] *)
Definition operator_neg (r this : pointer) : comp unit :=
  sub_sp 0 this r.

(** [bool operator_eq (vnl_matrix_fixed const & rhs) const] *)
Definition operator_eq (this rhs : pointer) : comp bool := equal this rhs.

(** [bool operator==(vnl_matrix_fixed const &that) const] *)
Definition operator_equal (this that : pointer) : comp bool :=
  operator_eq this that.

(** [bool operator!=(vnl_matrix_fixed const &that) const] *)
Definition operator_not_equal (this that : pointer) : comp bool :=
  Mem.bind (operator_eq this that) (fun e => Mem.ret (~~ e)).

End Routines.

End Helpers.

(** Two blocks of [n] cells are the same block or do not overlap, as the
    storage of two objects. *)
Definition same_or_apart (n : nat) (p q : Mem.pointer) : bool :=
  [|| p == q, (p + n <= q)%N | (q + n <= p)%N].

(** [r] does not point inside the block of [n] cells at [p], past its first
    cell: the block can be read front to back while results are written
    from [r] on. *)
Definition not_ahead (n : nat) (r p : Mem.pointer) : bool :=
  (r <= p)%N || (p + n <= r)%N.

(** The row [k * a + b], on its first [n] elements. *)
Definition row_comb (T : pzRingType) (n : nat) (k : T) (a b : seq T) : seq T :=
  mkseq (fun i => k * a`_i + b`_i) n.

(** Concrete inputs for the member functions and the helper routines. *)
Definition sample_2x2 : vnl_matrix_fixed int 2 2 :=
  [tuple 1%Z; 2%Z; 3%Z; 4%Z].

(** A dynamic matrix given by its dimensions and its coefficients. *)
Definition dyn_matrix : Type := (nat * nat * (nat -> nat -> int))%type.
Definition dyn_rows (m : dyn_matrix) : nat := m.1.1.
Definition dyn_cols (m : dyn_matrix) : nat := m.1.2.
Definition dyn_get (m : dyn_matrix) : nat -> nat -> int := m.2.
Definition sample_dyn : dyn_matrix := (1%N, 2%N, fun i j => 7%Z).

(** * Properties of the kernels *)

Section KernelFacts.

Variable T : comPzRingType.

Lemma det_rows_mx_2 (r0 r1 : seq T) :
  \det (rows_mx 2 [:: r0; r1]) = vnl_det_2 r0 r1.
Proof.
rewrite (expand_det_row _ ord0) !big_ord_recl big_ord0 /cofactor.
rewrite !det_mx11 !mxE /= /vnl_det_2.
ring.
Qed.

Lemma det_rows_mx_3 (r0 r1 r2 : seq T) :
  \det (rows_mx 3 [:: r0; r1; r2]) = vnl_det_3 r0 r1 r2.
Proof.
rewrite (expand_det_row _ ord0) !big_ord_recl big_ord0 /cofactor.
rewrite !(expand_det_row _ ord0) !big_ord_recl !big_ord0 /cofactor.
rewrite !det_mx11 !mxE /= /vnl_det_3.
ring.
Qed.

Lemma det_rows_mx_4 (r0 r1 r2 r3 : seq T) :
  \det (rows_mx 4 [:: r0; r1; r2; r3]) = vnl_det_4 r0 r1 r2 r3.
Proof.
rewrite (expand_det_row _ ord0) !big_ord_recl big_ord0 /cofactor.
rewrite !(expand_det_row _ ord0) !big_ord_recl !big_ord0 /cofactor.
rewrite !(expand_det_row _ ord0) !big_ord_recl !big_ord0 /cofactor.
rewrite !det_mx11 !mxE /= /vnl_det_4.
ring.
Qed.

End KernelFacts.

(** Claim C1.  For every two length-2 rows [r0 = [x0; y0]] and
    [r1 = [x1; y1]], the 2x2 kernel returns exactly
    [r0[0]*r1[1] - r0[1]*r1[0]]. *)
Theorem vnl_det_2_formula (T : pzRingType) (x0 y0 x1 y1 : T) :
  vnl_det_2 [:: x0; y0] [:: x1; y1] = x0 * y1 - y0 * x1.
Proof. by []. Qed.

(** Claim C2.  For every three length-3 rows the 3x3 kernel returns the
    determinant of the matrix formed by those rows (the determinant of the
    matrix library, a sum over the permutations), which is the cofactor
    expansion along the first row and, multiplied out, the six signed
    products; on the rows of the identity matrix it returns 1. *)
Theorem vnl_det_3_determinant (T : comPzRingType)
    (a0 a1 a2 b0 b1 b2 c0 c1 c2 : T) :
  let r0 := [:: a0; a1; a2] in
  let r1 := [:: b0; b1; b2] in
  let r2 := [:: c0; c1; c2] in
  [/\ vnl_det_3 r0 r1 r2 = \det (rows_mx 3 [:: r0; r1; r2]),
      vnl_det_3 r0 r1 r2 =
        a0 * (b1 * c2 - b2 * c1) - a1 * (b0 * c2 - b2 * c0)
        + a2 * (b0 * c1 - b1 * c0),
      vnl_det_3 r0 r1 r2 =
        a0 * b1 * c2 - a0 * c1 * b2 - b0 * a1 * c2
        + b0 * c1 * a2 + c0 * a1 * b2 - c0 * b1 * a2
    & vnl_det_3 [:: 1; 0; 0] [:: 0; 1; 0] [:: 0; 0; 1] = 1 :> T].
Proof.
move=> r0 r1 r2; split; first by rewrite det_rows_mx_3.
- by rewrite /vnl_det_3 /=; ring.
- by [].
- by rewrite /vnl_det_3 /=; ring.
Qed.

(** Claim C7.  The 2x2 kernel is antisymmetric under a swap of its rows:
    [det2(a, b) = - det2(b, a)] for every two length-2 rows; it takes the value
    1 on ([1,0],[0,1]) and -1 on ([0,1],[1,0]). *)
Theorem vnl_det_2_antisym (T : comPzRingType) (a0 a1 b0 b1 : T) :
  [/\ vnl_det_2 [:: a0; a1] [:: b0; b1] = - vnl_det_2 [:: b0; b1] [:: a0; a1],
      vnl_det_2 [:: 1; 0] [:: 0; 1] = 1 :> T
    & vnl_det_2 [:: 0; 1] [:: 1; 0] = -1 :> T].
Proof. by split; rewrite /vnl_det_2 /=; ring. Qed.


(** ** The facade and the kernels *)

Section FacadeFacts.

Variable T : pzRingType.
Variables num_rows num_cols : nat.
Implicit Type m : vnl_matrix_fixed T num_rows num_cols.

Lemma size_data m : size (data m) = (num_rows * num_cols)%N.
Proof. by rewrite /data size_tuple. Qed.

(** Reading index [c] through the pointer [m[r]] is reading [(r, c)]. *)
Lemma operator_index_get m r c : (operator_index m r)`_c = get m r c.
Proof. by rewrite /operator_index /get nth_drop. Qed.

Lemma matrix_row_get m r c :
  (c < num_cols)%N -> (matrix_row m r)`_c = get m r c.
Proof. by move=> ltc; rewrite /matrix_row nth_mkseq. Qed.

Lemma size_matrix_row m r : size (matrix_row m r) = num_cols.
Proof. by rewrite /matrix_row size_mkseq. Qed.

(** Within the block, the row contents are what the row pointer starts with. *)
Lemma matrix_row_take m r :
  (r < num_rows)%N -> matrix_row m r = take num_cols (operator_index m r).
Proof.
move=> ltr; apply: (@eq_from_nth _ 0).
  rewrite size_matrix_row size_take size_drop size_data.
  rewrite -mulnBl; case: ifP => // /negbT; rewrite -leqNgt => le.
  apply/eqP; rewrite eqn_leq le andbT.
  by rewrite -[X in (X <= _)%N]mul1n leq_mul2r subn_gt0 ltr orbT.
move=> c; rewrite size_matrix_row => ltc.
by rewrite matrix_row_get // nth_take // operator_index_get.
Qed.

End FacadeFacts.

(** Claim C8.  The fixed-size matrix overloads agree with the row-pointer
    kernels: for every 2x2, 3x3 and 4x4 [vnl_matrix_fixed m], [vnl_det(m)] is
    the kernel of that size applied to the rows of [m] in order; over a
    commutative ring it is the determinant of [m]. *)
Theorem vnl_det_fixed_rows :
  [/\ forall (T : pzRingType) (m : vnl_matrix_fixed T 2 2),
        vnl_det_2x2 m = vnl_det_2 (matrix_row m 0) (matrix_row m 1),
      forall (T : pzRingType) (m : vnl_matrix_fixed T 3 3),
        vnl_det_3x3 m =
        vnl_det_3 (matrix_row m 0) (matrix_row m 1) (matrix_row m 2),
      forall (T : pzRingType) (m : vnl_matrix_fixed T 4 4),
        vnl_det_4x4 m =
        vnl_det_4 (matrix_row m 0) (matrix_row m 1)
                  (matrix_row m 2) (matrix_row m 3)
    & forall T : comPzRingType,
      [/\ forall m : vnl_matrix_fixed T 2 2, vnl_det_2x2 m = \det (to_mx m),
          forall m : vnl_matrix_fixed T 3 3, vnl_det_3x3 m = \det (to_mx m)
        & forall m : vnl_matrix_fixed T 4 4, vnl_det_4x4 m = \det (to_mx m)]].
Proof.
split.
- move=> T m; rewrite /vnl_det_2x2 /vnl_det_2.
  by rewrite !operator_index_get !matrix_row_get.
- move=> T m; rewrite /vnl_det_3x3 /vnl_det_3.
  by rewrite !operator_index_get !matrix_row_get.
- move=> T m; rewrite /vnl_det_4x4 /vnl_det_4.
  by rewrite !operator_index_get !matrix_row_get.
move=> T; split=> m.
- rewrite /vnl_det_2x2 -det_rows_mx_2.
  congr (\det _); apply/matrixP=> i j; rewrite !mxE.
  by case: i => [[|[|i]] lti] //=; rewrite operator_index_get.
- rewrite /vnl_det_3x3 -det_rows_mx_3.
  congr (\det _); apply/matrixP=> i j; rewrite !mxE.
  by case: i => [[|[|[|i]]] lti] //=; rewrite operator_index_get.
- rewrite /vnl_det_4x4 -det_rows_mx_4.
  congr (\det _); apply/matrixP=> i j; rewrite !mxE.
  by case: i => [[|[|[|[|i]]]] lti] //=; rewrite operator_index_get.
Qed.

(** Claim C10.  There is a 1x1 overload, and for every 1x1
    [vnl_matrix_fixed m] it returns the element [m[0][0]], the single element
    the matrix stores. *)
Theorem vnl_det_1x1_element (T : pzRingType) (m : vnl_matrix_fixed T 1 1) :
  vnl_det_1x1 m = get m 0 0 /\ data m = [:: vnl_det_1x1 m].
Proof.
rewrite /vnl_det_1x1 operator_index_get; split=> //.
by rewrite /get /data; case: m => [[|x [|y s]]].
Qed.

(** ** The kernels read and do not write *)


Section ReaderFacts.

Variable T : pzRingType.
Implicit Types (s : Mem.memory T) (p : Mem.pointer).

(** Each call returns what the pure kernel computes from the cells its row
    pointers give access to, and hands the memory back as it received it. *)
Lemma run_vnl_det_2 s p0 p1 :
  Mem.vnl_det_2 p0 p1 s =
  (vnl_det_2 (Mem.row_at s p0 2) (Mem.row_at s p1 2), s).
Proof. by []. Qed.

Lemma run_vnl_det_3 s p0 p1 p2 :
  Mem.vnl_det_3 p0 p1 p2 s =
  (vnl_det_3 (Mem.row_at s p0 3) (Mem.row_at s p1 3) (Mem.row_at s p2 3), s).
Proof. by []. Qed.

Lemma run_vnl_det_4 s p0 p1 p2 p3 :
  Mem.vnl_det_4 p0 p1 p2 p3 s =
  (vnl_det_4 (Mem.row_at s p0 4) (Mem.row_at s p1 4)
             (Mem.row_at s p2 4) (Mem.row_at s p3 4), s).
Proof. by []. Qed.

End ReaderFacts.

(** Claim C9.  The determinant kernels are deterministic and free of side
    effects: for each arity (2x2, 3x3, 4x4), two calls on rows of equal
    contents, whatever the memories and the addresses, return equal results,
    and a call hands back the memory exactly as it received it, input rows
    included. *)
Theorem vnl_det_pure (T : pzRingType) (s s' : Mem.memory T) :
  [/\ forall p0 p1 q0 q1,
        Mem.row_at s p0 2 = Mem.row_at s' q0 2 ->
        Mem.row_at s p1 2 = Mem.row_at s' q1 2 ->
        (Mem.vnl_det_2 p0 p1 s).1 = (Mem.vnl_det_2 q0 q1 s').1,
      forall p0 p1 p2 q0 q1 q2,
        Mem.row_at s p0 3 = Mem.row_at s' q0 3 ->
        Mem.row_at s p1 3 = Mem.row_at s' q1 3 ->
        Mem.row_at s p2 3 = Mem.row_at s' q2 3 ->
        (Mem.vnl_det_3 p0 p1 p2 s).1 = (Mem.vnl_det_3 q0 q1 q2 s').1,
      forall p0 p1 p2 p3 q0 q1 q2 q3,
        Mem.row_at s p0 4 = Mem.row_at s' q0 4 ->
        Mem.row_at s p1 4 = Mem.row_at s' q1 4 ->
        Mem.row_at s p2 4 = Mem.row_at s' q2 4 ->
        Mem.row_at s p3 4 = Mem.row_at s' q3 4 ->
        (Mem.vnl_det_4 p0 p1 p2 p3 s).1 = (Mem.vnl_det_4 q0 q1 q2 q3 s').1
    & [/\ forall p0 p1, (Mem.vnl_det_2 p0 p1 s).2 = s,
          forall p0 p1 p2, (Mem.vnl_det_3 p0 p1 p2 s).2 = s
        & forall p0 p1 p2 p3, (Mem.vnl_det_4 p0 p1 p2 p3 s).2 = s]].
Proof.
split.
- by move=> p0 p1 q0 q1 e0 e1; rewrite !run_vnl_det_2 /= e0 e1.
- by move=> p0 p1 p2 q0 q1 q2 e0 e1 e2; rewrite !run_vnl_det_3 /= e0 e1 e2.
- move=> p0 p1 p2 p3 q0 q1 q2 q3 e0 e1 e2 e3.
  by rewrite !run_vnl_det_4 /= e0 e1 e2 e3.
- by split=> *; rewrite ?run_vnl_det_2 ?run_vnl_det_3 ?run_vnl_det_4.
Qed.


(** The rows [1 2] and [3 4], at addresses 0 and 2 of [mem_a] and at
    addresses 10 and 12 of [mem_b]. *)
Lemma vnl_det_pure_witness :
  [/\ Mem.row_at mem_a 0 2 = Mem.row_at mem_b 10 2,
      Mem.row_at mem_a 2 2 = Mem.row_at mem_b 12 2
    & (Mem.vnl_det_2 0 2 mem_a).1 = (Mem.vnl_det_2 10 12 mem_b).1].
Proof.
have [det2_eq _ _ _] := vnl_det_pure mem_a mem_b.
split; [reflexivity | reflexivity | apply: det2_eq; reflexivity].
Defined.

(** * The hull pipeline *)

Section HullFacts.

Variable R : realDomainType.
Implicit Types (a b c p q u v : Point R) (s stack : seq (Point R)).

Lemma point_le_total : total (@point_le R).
Proof.
move=> p q; rewrite /point_le.
case: (ltgtP p.1 q.1) => //= _.
by rewrite le_total.
Qed.

Lemma point_le_trans : transitive (@point_le R).
Proof.
move=> q p r; rewrite /point_le.
case/orP=> [lt_pq|/andP[/eqP-> le_pq]].
  case/orP=> [lt_qr|/andP[/eqP<- _]]; last by rewrite lt_pq.
  by rewrite (lt_trans lt_pq lt_qr).
case/orP=> [->//|/andP[-> le_qr]].
by rewrite (le_trans le_pq le_qr) orbT.
Qed.

Lemma point_le_anti : antisymmetric (@point_le R).
Proof.
move=> [p1 p2] [q1 q2]; rewrite /point_le /=.
case: (ltgtP p1 q1) => //= ->.
by rewrite -eq_le => /eqP->.
Qed.

Lemma pop_while_sub stack c : {subset pop_while stack c <= stack}.
Proof.
elim: stack => [|q [|p stack] IH] //= x.
case: ifP => _ // /IH.
by rewrite [in X in _ -> X]inE => ->; rewrite orbT.
Qed.

Lemma foldl_push_sub s stack : {subset foldl (@push R) stack s <= stack ++ s}.
Proof.
elim: s stack => [|c s IH] stack x /=; first by rewrite cats0.
move/IH; rewrite mem_cat inE -orbA mem_cat inE.
case/or3P=> [/eqP->|/pop_while_sub->//|->]; first by rewrite eqxx orbT.
by rewrite !orbT.
Qed.

Lemma foldl_push_cons c s stack :
  exists x rest, foldl (@push R) stack (c :: s) = x :: rest.
Proof.
rewrite /= /push; move: (pop_while stack c) => st.
elim: s c st => [|d s IH] c st /=; first by exists c, st.
by rewrite /push; apply: IH.
Qed.

Lemma chain_sub s : {subset chain s <= s}.
Proof. by move=> x; rewrite /chain mem_rev => /foldl_push_sub. Qed.

Lemma drop_last_chain c s :
  exists2 ch, drop_last (chain (c :: s)) = Some ch & {subset ch <= c :: s}.
Proof.
have [x [rest e]] := foldl_push_cons c s [::].
case E: (chain (c :: s)) => [|y r].
  by move/(congr1 size): E; rewrite /chain e size_rev.
exists (take (size (y :: r)).-1 (y :: r)) => // z /mem_take.
by rewrite -E; apply: chain_sub.
Qed.

End HullFacts.


(** Claim C5.  [convex_hull] is total: for every finite point sequence, the
    empty one and those with repeated, coincident or collinear points
    included, it returns a Polygon and does not fail; the vertices of that
    Polygon are points of the input. *)
Theorem convex_hull_total (R : realDomainType) (points : seq (Point R)) :
  exists2 poly, convex_hull points = Some poly & {subset poly <= points}.
Proof.
rewrite /convex_hull.
have sub_sort: {subset sort (@point_le R) points <= points}.
  by move=> x; rewrite mem_sort.
case: (sort _ _) sub_sort => [|p s] sub; first by exists [::].
case: ifP => _.
  by exists [:: p] => // x; rewrite inE => /eqP->; apply: sub; rewrite inE eqxx.
have [lo -> sub_lo] := drop_last_chain p s.
have: exists2 up, drop_last (upper_chain (p :: s)) = Some up
                & {subset up <= p :: s}.
  rewrite /upper_chain; case E: (rev (p :: s)) => [|q t].
    by move/(congr1 size): E; rewrite size_rev.
  have [up -> sub_up] := drop_last_chain q t.
  by exists up => // x /sub_up; rewrite -E mem_rev.
case=> up -> sub_up; exists (lo ++ up) => // x.
by rewrite mem_cat => /orP[/sub_lo|/sub_up]; apply: sub.
Qed.

(** Claim C6.  For every point sequence [P] and every permutation [P'] of
    [P], [convex_hull P'] is the Polygon [convex_hull P]: the same vertices in
    the same order, hence the same vertex set and the same rotational
    orientation. *)
Theorem convex_hull_perm (R : realDomainType) (P P' : seq (Point R)) :
  perm_eq P P' -> convex_hull P' = convex_hull P.
Proof.
move=> eqPP'; rewrite /convex_hull.
suff ->: sort (@point_le R) P' = sort (@point_le R) P by [].
apply/perm_sortP; rewrite 1?perm_sym //.
- exact: point_le_total.
- exact: point_le_trans.
- exact: point_le_anti.
Qed.

(** The points of the recorded scenario, in the order of the test and in
    reverse order. *)
Lemma convex_hull_perm_witness :
  perm_eq scenario (rev scenario) /\
  convex_hull (rev scenario) = convex_hull scenario.
Proof.
have perm : perm_eq scenario (rev scenario) by vm_compute.
by split; [exact: perm | exact: convex_hull_perm perm].
Defined.

(** ** Orientation and turn directions *)

Section TurnFacts.

Variable F : realFieldType.
Implicit Types a b c : Point F.

Lemma sqnorm_gt0 a b :
  a <> b -> 0 < (b.1 - a.1) ^+ 2 + (b.2 - a.2) ^+ 2.
Proof.
case: a b => [a1 a2] [b1 b2] /= neq.
rewrite lt0r addr_ge0 ?sqr_ge0 // andbT.
rewrite paddr_eq0 ?sqr_ge0 // !sqrf_eq0 !subr_eq0.
by apply/negP=> /andP[/eqP e1 /eqP e2]; apply: neq; rewrite e1 e2.
Qed.

Lemma cross_decomp a b c (s t : F) :
  c.1 - a.1 = s * (b.1 - a.1) - t * (b.2 - a.2) ->
  c.2 - a.2 = s * (b.2 - a.2) + t * (b.1 - a.1) ->
  cross a b c = t * ((b.1 - a.1) ^+ 2 + (b.2 - a.2) ^+ 2).
Proof. by rewrite /cross /vnl_det_2 /= => -> ->; ring. Qed.

Lemma cross_side a b c :
  a <> b ->
  let n := (b.1 - a.1) ^+ 2 + (b.2 - a.2) ^+ 2 in
  let s := ((b.1 - a.1) * (c.1 - a.1) + (b.2 - a.2) * (c.2 - a.2)) / n in
  let t := cross a b c / n in
  c.1 - a.1 = s * (b.1 - a.1) - t * (b.2 - a.2) /\
  c.2 - a.2 = s * (b.2 - a.2) + t * (b.1 - a.1).
Proof.
move=> /sqnorm_gt0 n_gt0 n s t.
have n0 : (b.1 - a.1) ^+ 2 + (b.2 - a.2) ^+ 2 != 0 by rewrite gt_eqF.
by rewrite /s /t /n /cross /vnl_det_2 /=; split; field.
Qed.

Lemma cross_eq0_same a c : cross a a c = 0.
Proof. by rewrite /cross /vnl_det_2 /=; ring. Qed.

Lemma left_turnP a b c : 0 < cross a b c <-> left_turn a b c.
Proof.
split=> [pos|[neq [s [t [t_gt0 e1 e2]]]]]; last first.
  by rewrite (cross_decomp e1 e2) mulr_gt0 // sqnorm_gt0.
have neq : a <> b by move=> e; rewrite -e cross_eq0_same ltxx in pos.
split=> //; have [e1 e2] := cross_side c neq.
eexists; eexists; split; [|exact: e1|exact: e2].
by rewrite divr_gt0 // sqnorm_gt0.
Qed.

Lemma right_turnP a b c : cross a b c < 0 <-> right_turn a b c.
Proof.
split=> [neg|[neq [s [t [t_lt0 e1 e2]]]]]; last first.
  by rewrite (cross_decomp e1 e2) pmulr_llt0 // sqnorm_gt0.
have neq : a <> b by move=> e; rewrite -e cross_eq0_same ltxx in neg.
split=> //; have [e1 e2] := cross_side c neq.
eexists; eexists; split; [|exact: e1|exact: e2].
by rewrite pmulr_llt0 // invr_gt0 sqnorm_gt0.
Qed.

(** The line through [a] directed by [b - a], evaluated at [x]. *)
Lemma cross_line a b x :
  - (b.2 - a.2) * x.1 + (b.1 - a.1) * x.2
  + ((b.2 - a.2) * a.1 - (b.1 - a.1) * a.2) = cross a b x.
Proof. by rewrite /cross /vnl_det_2 /=; ring. Qed.

Lemma cross_eq0_first a b : cross a b a = 0.
Proof. by rewrite /cross /vnl_det_2 /=; ring. Qed.

Lemma cross_eq0_second a b : cross a b b = 0.
Proof. by rewrite /cross /vnl_det_2 /=; ring. Qed.

Lemma normal_neq0 a b : a <> b -> (- (b.2 - a.2), b.1 - a.1) <> (0, 0).
Proof.
case: a b => [a1 a2] [b1 b2] /= neq [/eqP + /eqP].
rewrite oppr_eq0 !subr_eq0 => /eqP e2 /eqP e1.
by apply: neq; rewrite e1 e2.
Qed.

Lemma collinearP a b c : cross a b c = 0 <-> collinear a b c.
Proof.
split=> [det0|[al [be [ga [neq ea eb ec]]]]].
  have [eab|/eqP neq_ab] := eqVneq a b; last first.
    exists (- (b.2 - a.2)), (b.1 - a.1),
           ((b.2 - a.2) * a.1 - (b.1 - a.1) * a.2).
    split; first exact: normal_neq0.
    - by rewrite cross_line cross_eq0_first.
    - by rewrite cross_line cross_eq0_second.
    - by rewrite cross_line.
  have [eac|/eqP neq_ac] := eqVneq a c; last first.
    exists (- (c.2 - a.2)), (c.1 - a.1),
           ((c.2 - a.2) * a.1 - (c.1 - a.1) * a.2).
    split; first exact: normal_neq0.
    - by rewrite cross_line cross_eq0_first.
    - by rewrite -eab cross_line cross_eq0_first.
    - by rewrite cross_line cross_eq0_second.
  exists 1, 0, (- a.1); rewrite -eab -eac mul0r mul1r addr0 subrr.
  by split=> // -[/eqP]; rewrite oner_eq0.
have ald : al * cross a b c = 0.
  have ->: al * cross a b c =
      (al * b.1 + be * b.2 + ga - (al * a.1 + be * a.2 + ga)) * (c.2 - a.2)
    - (al * c.1 + be * c.2 + ga - (al * a.1 + be * a.2 + ga)) * (b.2 - a.2).
    by rewrite /cross /vnl_det_2 /=; ring.
  by rewrite ea eb ec !subrr !mul0r subrr.
have bed : be * cross a b c = 0.
  have ->: be * cross a b c =
      (al * c.1 + be * c.2 + ga - (al * a.1 + be * a.2 + ga)) * (b.1 - a.1)
    - (al * b.1 + be * b.2 + ga - (al * a.1 + be * a.2 + ga)) * (c.1 - a.1).
    by rewrite /cross /vnl_det_2 /=; ring.
  by rewrite ea eb ec !subrr !mul0r subrr.
apply/eqP; move/eqP: ald; move/eqP: bed; rewrite !mulf_eq0.
case/orP=> [/eqP be0|->//]; case/orP=> [/eqP al0|->//].
by case: neq; rewrite al0 be0.
Qed.

End TurnFacts.

(** Claim C3.  The orientation predicate classifies every ordered triple
    [(a, b, c)]: the sign of the 2x2 determinant of [b - a] and [c - a] is
    positive exactly when [a -> b -> c] turns left (counter-clockwise),
    negative exactly when it turns right (clockwise), and zero exactly when
    the three points are collinear. *)
Theorem orientation_classifies (F : realFieldType) (a b c : Point F) :
  [/\ 0 < orientation a b c <-> left_turn a b c,
      orientation a b c < 0 <-> right_turn a b c
    & orientation a b c = 0 <-> collinear a b c].
Proof.
split.
- by rewrite /orientation sgr_gt0; apply: left_turnP.
- by rewrite /orientation sgr_lt0; apply: right_turnP.
- have [h1 h2] := collinearP a b c.
  rewrite /orientation; split=> [/eqP|/h2->]; last exact: sgr0.
  by rewrite sgr_eq0 => /eqP.
Qed.

(** ** Integer scenarios hold in every ordered ring *)

Section Embedding.

Variable R : realDomainType.
Implicit Types (a b c p q u v : Point int) (s stack : seq (Point int)).

Local Notation emb := (embed R).

Lemma embed_inj : injective emb.
Proof.
move=> [p1 p2] [q1 q2] [/eqP e1 /eqP e2].
by move: e1 e2; rewrite !eqr_int => /eqP-> /eqP->.
Qed.

Lemma cross_embed a b c : cross (emb a) (emb b) (emb c) = (cross a b c)%:~R.
Proof. by rewrite /cross /vnl_det_2 /= !(rmorphB, rmorphM). Qed.

Lemma orientation_embed_le0 a b c :
  (orientation (emb a) (emb b) (emb c) <= 0) = (orientation a b c <= 0).
Proof. by rewrite /orientation !sgr_le0 cross_embed lerz0. Qed.

Lemma orientation_embed_gt0 a b c :
  (0 < orientation (emb a) (emb b) (emb c)) = (0 < orientation a b c).
Proof. by rewrite /orientation !sgr_gt0 cross_embed ltr0z. Qed.

Lemma orientation_embed_lt0 a b c :
  (orientation (emb a) (emb b) (emb c) < 0) = (orientation a b c < 0).
Proof. by rewrite /orientation !sgr_lt0 cross_embed ltrz0. Qed.

Lemma orientation_embed_eq0 a b c :
  (orientation (emb a) (emb b) (emb c) == 0) = (orientation a b c == 0).
Proof. by rewrite /orientation !sgr_eq0 cross_embed intr_eq0. Qed.

Lemma point_le_embed : {mono emb : p q / point_le p q}.
Proof. by move=> p q; rewrite /point_le /= ltr_int eqr_int ler_int. Qed.

Lemma pop_while_embed stack c :
  pop_while (map emb stack) (emb c) = map emb (pop_while stack c).
Proof.
elim: stack => [|q [|p stack] IH] //=.
by rewrite orientation_embed_le0; case: ifP.
Qed.

Lemma chain_embed s : chain (map emb s) = map emb (chain s).
Proof.
rewrite /chain map_rev; congr rev.
rewrite -[[::] in LHS]/(map emb [::]).
elim: s [::] => [|c s IH] stack //=.
by rewrite -IH /push pop_while_embed.
Qed.

Lemma drop_last_embed s :
  drop_last (map emb s) = omap (map emb) (drop_last s).
Proof. by case: s => [|x s] //=; rewrite size_map map_take. Qed.

Lemma convex_hull_embed s :
  convex_hull (map emb s) = omap (map emb) (convex_hull s).
Proof.
rewrite /convex_hull -(map_sort point_le_embed).
case: (sort _ s) => [|p t] //=.
rewrite !eqxx /= all_map.
have ->: all (preim emb (pred1 (emb p))) t = all (pred1 p) t.
  by apply: eq_all => x /=; rewrite (inj_eq embed_inj).
rewrite -[emb p :: map emb t]/(map emb (p :: t)).
case: ifP => // _.
rewrite /lower_chain /upper_chain -map_rev !chain_embed !drop_last_embed.
case: (drop_last (chain (p :: t))) => [lo|] //=.
by case: (drop_last (chain _)) => [up|] //=; rewrite map_cat.
Qed.

Lemma min_embed (x y : int) : Num.min x%:~R y%:~R = (Num.min x y)%:~R :> R.
Proof. by rewrite !minElt ltr_int; case: ifP. Qed.

Lemma max_embed (x y : int) : Num.max x%:~R y%:~R = (Num.max x y)%:~R :> R.
Proof. by rewrite !maxElt ltr_int; case: ifP. Qed.

Lemma on_segment_embed u v p :
  on_segment (emb u) (emb v) (emb p) = on_segment u v p.
Proof.
by rewrite /on_segment orientation_embed_eq0 /= !min_embed !max_embed !ler_int.
Qed.

Lemma crosses_embed p u v : crosses (emb p) (emb u, emb v) = crosses p (u, v).
Proof.
by rewrite /crosses orientation_embed_gt0 orientation_embed_lt0 /=
           !ler_int !ltr_int.
Qed.

Lemma edges_embed s :
  edges (map emb s) = [seq (emb e.1, emb e.2) | e <- edges s].
Proof.
rewrite /edges -map_rot; elim: s (rot 1 s) => [|x s IH] [|y t] //=.
by rewrite IH.
Qed.

Lemma contains_embed s p : contains (map emb s) (emb p) = contains s p.
Proof.
case: s => [|x [|y [|z s]]] //; first by rewrite /= (inj_eq embed_inj).
  exact: on_segment_embed.
have E: map emb [:: x, y, z & s] = [:: emb x, emb y, emb z & map emb s] by [].
rewrite E /contains -E edges_embed.
rewrite has_map count_map; congr (_ || odd _).
  by apply: eq_has => e /=; apply: on_segment_embed.
by apply: eq_count => -[u v] /=; apply: crosses_embed.
Qed.

End Embedding.

(** Claim C4.  For the points (0,0), (0,0), (5,0), (3,1), (2,1), (0,5), in
    every ordered ring of coordinates, [convex_hull] produces a Polygon that
    has neither (3,1) nor (2,1) among its vertices and whose [contains] is
    true of (0,0), (5,0), (3,1), (2,1) and (0,5). *)
Theorem convex_hull_scenario (R : realDomainType) :
  let pts : seq (Point R) :=
    [:: (0, 0); (0, 0); (5, 0); (3, 1); (2, 1); (0, 5)] in
  exists2 poly, convex_hull pts = Some poly &
    [/\ (3, 1) \notin poly, (2, 1) \notin poly
      & [/\ contains poly (0, 0), contains poly (5, 0), contains poly (3, 1),
            contains poly (2, 1) & contains poly (0, 5)]].
Proof.
move=> pts.
have ->: pts = map (embed R) scenario by [].
have hull: convex_hull scenario = Some [:: (0%Z, 0%Z); (5%Z, 0%Z); (0%Z, 5%Z)].
  by vm_compute.
rewrite convex_hull_embed hull /=.
set poly := [:: (0%Z, 0%Z); (5%Z, 0%Z); (0%Z, 5%Z)] : seq (Point int).
exists (map (embed R) poly) => //.
split.
- by rewrite -[(3, 1)]/(embed R (3%Z, 1%Z)) (mem_map (@embed_inj R)).
- by rewrite -[(2, 1)]/(embed R (2%Z, 1%Z)) (mem_map (@embed_inj R)).
split.
- by rewrite -[(0, 0)]/(embed R (0%Z, 0%Z)) contains_embed.
- by rewrite -[(5, 0)]/(embed R (5%Z, 0%Z)) contains_embed.
- by rewrite -[(3, 1)]/(embed R (3%Z, 1%Z)) contains_embed.
- by rewrite -[(2, 1)]/(embed R (2%Z, 1%Z)) contains_embed.
- by rewrite -[(0, 5)]/(embed R (0%Z, 5%Z)) contains_embed.
Qed.

(** * Worked examples *)

Example vnl_det_2_example : vnl_det_2 [:: 3; 1] [:: 2; 5] = 13 :> int.
Proof. by []. Qed.

Example vnl_det_3_example :
  vnl_det_3 [:: 2; 0; 1] [:: 1; 3; 2] [:: 1; 1; 4] = 18 :> int.
Proof. by []. Qed.

Example vnl_det_4_identity (T : pzRingType) :
  vnl_det_4 [:: 1; 0; 0; 0] [:: 0; 1; 0; 0] [:: 0; 0; 1; 0] [:: 0; 0; 0; 1]
  = 1 :> T.
Proof.
by rewrite /vnl_det_4 /= !(mul0r, mulr0, mul1r, subr0, addr0, add0r).
Qed.

Example vnl_det_2x2_example :
  vnl_det_2x2 [tuple 3; 1; 2; 5] = 13 :> int.
Proof. by []. Qed.

Example vnl_det_2_load_example :
  Mem.vnl_det_2 0 2 mem_a = ((-2)%Z, mem_a).
Proof. by []. Qed.

Example orientation_left : orientation (0, 0) (1, 0) (0, 1) = 1 :> int.
Proof. by []. Qed.

Example orientation_right : orientation (0, 0) (0, 1) (1, 0) = -1 :> int.
Proof. by []. Qed.

Example orientation_flat : orientation (0, 0) (1, 1) (3, 3) = 0 :> int.
Proof. by []. Qed.

Example convex_hull_nil (R : realDomainType) :
  convex_hull [::] = Some [::] :> option (Polygon R).
Proof. by []. Qed.

Example convex_hull_one (R : realDomainType) (p : Point R) :
  convex_hull [:: p] = Some [:: p].
Proof. by rewrite /convex_hull /= eqxx. Qed.

Example convex_hull_twice (R : realDomainType) (p : Point R) :
  convex_hull [:: p; p] = Some [:: p].
Proof.
rewrite /convex_hull /sort /= /point_le ltxx !eqxx lexx /=.
by rewrite !eqxx.
Qed.

Example convex_hull_collinear :
  convex_hull [:: (1, 1); (0, 0); (2, 2) : Point int]
  = Some [:: (0%Z, 0%Z); (2%Z, 2%Z)].
Proof. by vm_compute. Qed.

Example convex_hull_square :
  convex_hull [:: (0, 0); (1, 1); (2, 2); (0, 2); (2, 0); (1, 0) : Point int]
  = Some [:: (0%Z, 0%Z); (2%Z, 0%Z); (2%Z, 2%Z); (0%Z, 2%Z)].
Proof. by vm_compute. Qed.

Example contains_outside :
  contains [:: (0, 0); (5, 0); (0, 5) : Point int] (3, 3) = false.
Proof. by vm_compute. Qed.

Example contains_nil (R : realDomainType) (p : Point R) :
  contains [::] p = false.
Proof. by []. Qed.

(** * Further properties of the row kernels *)

Section KernelAlgebra.

Variable T : comPzRingType.
Implicit Types (r : seq T) (k : T).

(** Property X1.  The 3-row kernel is the expansion along the first column:
    the first element of each row times the 2-row kernel on the other two rows
    without their first element, with alternating signs. *)
Theorem vnl_det_3_by_minors r0 r1 r2 :
  vnl_det_3 r0 r1 r2 =
    r0`_0 * vnl_det_2 (behead r1) (behead r2)
  - r1`_0 * vnl_det_2 (behead r0) (behead r2)
  + r2`_0 * vnl_det_2 (behead r0) (behead r1).
Proof. by rewrite /vnl_det_3 /vnl_det_2 !nth_behead /=; ring. Qed.

(** Property X2.  The 4-row kernel is the expansion along the first column
    into four calls of the 3-row kernel on the rows without their first
    element. *)
Theorem vnl_det_4_by_minors r0 r1 r2 r3 :
  vnl_det_4 r0 r1 r2 r3 =
    r0`_0 * vnl_det_3 (behead r1) (behead r2) (behead r3)
  - r1`_0 * vnl_det_3 (behead r0) (behead r2) (behead r3)
  + r2`_0 * vnl_det_3 (behead r0) (behead r1) (behead r3)
  - r3`_0 * vnl_det_3 (behead r0) (behead r1) (behead r2).
Proof. by rewrite /vnl_det_4 /vnl_det_3 !nth_behead /=; ring. Qed.

(** Property X3.  The 3-row kernel changes sign when two of its rows are
    exchanged, and returns 0 when two of its rows are the same. *)
Theorem vnl_det_3_alternating r0 r1 r2 :
  [/\ vnl_det_3 r1 r0 r2 = - vnl_det_3 r0 r1 r2,
      vnl_det_3 r0 r2 r1 = - vnl_det_3 r0 r1 r2,
      vnl_det_3 r2 r1 r0 = - vnl_det_3 r0 r1 r2
    & [/\ vnl_det_3 r0 r0 r2 = 0, vnl_det_3 r0 r1 r1 = 0
        & vnl_det_3 r0 r1 r0 = 0]].
Proof. by split; [| | |split]; rewrite /vnl_det_3; ring. Qed.

(** Property X4.  The 4-row kernel changes sign when two neighbouring rows are
    exchanged, and returns 0 when two neighbouring rows are the same. *)
Theorem vnl_det_4_alternating r0 r1 r2 r3 :
  [/\ vnl_det_4 r1 r0 r2 r3 = - vnl_det_4 r0 r1 r2 r3,
      vnl_det_4 r0 r2 r1 r3 = - vnl_det_4 r0 r1 r2 r3,
      vnl_det_4 r0 r1 r3 r2 = - vnl_det_4 r0 r1 r2 r3
    & [/\ vnl_det_4 r0 r0 r2 r3 = 0, vnl_det_4 r0 r1 r1 r3 = 0
        & vnl_det_4 r0 r1 r2 r2 = 0]].
Proof. by split; [| | |split]; rewrite /vnl_det_4; ring. Qed.

(** Property X5.  The 4x4 kernel returns the determinant of the matrix formed
    by its four length-4 rows, and 1 on the rows of the identity matrix. *)
Theorem vnl_det_4_determinant
    (a0 a1 a2 a3 b0 b1 b2 b3 c0 c1 c2 c3 d0 d1 d2 d3 : T) :
  let r0 := [:: a0; a1; a2; a3] in
  let r1 := [:: b0; b1; b2; b3] in
  let r2 := [:: c0; c1; c2; c3] in
  let r3 := [:: d0; d1; d2; d3] in
  vnl_det_4 r0 r1 r2 r3 = \det (rows_mx 4 [:: r0; r1; r2; r3]) /\
  vnl_det_4 [:: 1; 0; 0; 0] [:: 0; 1; 0; 0] [:: 0; 0; 1; 0] [:: 0; 0; 0; 1]
  = 1 :> T.
Proof.
move=> r0 r1 r2 r3; split; first by rewrite det_rows_mx_4.
by rewrite /vnl_det_4 /=; ring.
Qed.

(** Property X6.  The 3x3 and 4x4 kernels are linear in their first row; with
    the alternation, in every row. *)
Theorem vnl_det_row_linear k a b r1 r2 r3 :
  vnl_det_3 (row_comb 3 k a b) r1 r2
  = k * vnl_det_3 a r1 r2 + vnl_det_3 b r1 r2 /\
  vnl_det_4 (row_comb 4 k a b) r1 r2 r3
  = k * vnl_det_4 a r1 r2 r3 + vnl_det_4 b r1 r2 r3.
Proof. by split; rewrite /vnl_det_3 /vnl_det_4 /=; ring. Qed.

End KernelAlgebra.

(** * The member functions of the fixed-size matrix *)

Section AccessFacts.

Variable T : pzRingType.
Variables num_rows num_cols : nat.
Local Notation matrix := (vnl_matrix_fixed T num_rows num_cols).
Local Notation in_range := (Fixed.in_range num_rows num_cols).
Implicit Types (m : matrix) (r c i : nat) (v : T).

Lemma flat_lt r c : in_range r c -> (r * num_cols + c < num_rows * num_cols)%N.
Proof.
case/andP=> ltr ltc.
apply: (@leq_trans (r.+1 * num_cols)); first by rewrite mulSn addnC ltn_add2r.
by rewrite leq_mul2r ltr orbT.
Qed.

Lemma flat_divn r c : (c < num_cols)%N -> ((r * num_cols + c) %/ num_cols)%N = r.
Proof.
by move=> ltc; rewrite divnMDl ?divn_small ?addn0 //; case: num_cols ltc.
Qed.

Lemma flat_modn r c : (c < num_cols)%N -> ((r * num_cols + c) %% num_cols)%N = c.
Proof. by move=> ltc; rewrite modnMDl modn_small. Qed.

Lemma flat_inj r c r' c' :
  (c < num_cols)%N -> (c' < num_cols)%N ->
  (r * num_cols + c == r' * num_cols + c')%N = (r == r') && (c == c').
Proof.
move=> ltc ltc'; apply/eqP/andP=> [e|[/eqP-> /eqP->] //].
by split; apply/eqP; [rewrite -(flat_divn r ltc) e flat_divn|
                      rewrite -(flat_modn r ltc) e flat_modn].
Qed.

Lemma get_nth m r c (lt : (r * num_cols + c < num_rows * num_cols)%N) :
  get m r c = tnth m (Ordinal lt).
Proof. by rewrite /get /data (tnth_nth 0). Qed.

Lemma get_write m i v r c :
  in_range r c ->
  get (Fixed.write m i v) r c =
  if (r * num_cols + c == i)%N then v else get m r c.
Proof.
by move=> /flat_lt lt; rewrite !(get_nth _ lt) /Fixed.write tnth_mktuple.
Qed.

Lemma get_of_fun (f : nat -> nat -> T) r c :
  in_range r c -> get (Fixed.of_fun num_rows num_cols f) r c = f r c.
Proof.
move=> rg; have lt := flat_lt rg; case/andP: rg => _ ltc.
by rewrite (get_nth _ lt) /Fixed.of_fun tnth_mktuple /= flat_divn ?flat_modn.
Qed.

Lemma matrix_ext m m' :
  (forall r c, in_range r c -> get m r c = get m' r c) -> m = m'.
Proof.
move=> ext; apply: eq_from_tnth => k.
have c_gt0 : (0 < num_cols)%N.
  by case: num_cols k => [|n] // [k]; rewrite muln0.
have rg : in_range (k %/ num_cols) (k %% num_cols).
  by rewrite /Fixed.in_range ltn_mod c_gt0 andbT ltn_divLR // ltn_ord.
have := ext _ _ rg; rewrite /get /data -divn_eq.
by rewrite !(tnth_nth 0).
Qed.

Lemma of_fun_get m : Fixed.of_fun num_rows num_cols (get m) = m.
Proof. by apply: matrix_ext => r c rg; rewrite get_of_fun. Qed.

Lemma eq_of_fun (f g : nat -> nat -> T) :
  (forall r c, in_range r c -> f r c = g r c) ->
  Fixed.of_fun num_rows num_cols f = Fixed.of_fun num_rows num_cols g.
Proof. by move=> e; apply: matrix_ext => r c rg; rewrite !get_of_fun ?e. Qed.

Lemma to_mx_get m (i : 'I_num_rows) (j : 'I_num_cols) : to_mx m i j = get m i j.
Proof. by rewrite mxE. Qed.

Lemma to_mx_inj : injective (@to_mx T num_rows num_cols).
Proof.
move=> m m' e; apply: matrix_ext => r c /andP[ltr ltc].
by move/matrixP/(_ (Ordinal ltr) (Ordinal ltc)): e; rewrite !mxE.
Qed.

Lemma coeff_set_of_fun m r c v :
  in_range r c ->
  Fixed.coeff_set m r c v =
  Done (Fixed.of_fun num_rows num_cols
          (fun r' c' => if (r' == r) && (c' == c) then v else get m r' c')).
Proof.
move=> rg; rewrite /Fixed.coeff_set rg; congr Done.
apply: matrix_ext => r' c' rg'; rewrite get_write // get_of_fun //.
by rewrite flat_inj //; [case/andP: rg'|case/andP: rg].
Qed.

End AccessFacts.

(** ** Loops *)

Section LoopFacts.

Variable A : Type.
Implicit Types (body : nat -> A -> outcome A) (P : nat -> A -> Prop).

(** The invariant rule of the counted loop. *)
Lemma for_loop_inv P body lo n acc :
  P lo acc ->
  (forall i a, (lo <= i < lo + n)%N -> P i a ->
     exists2 a', body i a = Done a' & P i.+1 a') ->
  exists2 a', for_loop lo n body acc = Done a' & P (lo + n)%N a'.
Proof.
elim: n lo acc => [|n IH] lo acc Plo step /=; first by exists acc; rewrite ?addn0.
have [|a1 -> P1 /=] := step lo acc _ Plo; first by rewrite leqnn -addn1 leq_add2l.
rewrite addnS -addSn; apply: IH => // i a /andP[lei lti].
by apply: step; rewrite (ltnW lei) addnS -addSn.
Qed.

Lemma bind_Done (B : Type) (x : A) (k : A -> outcome B) :
  bind (Done x) k = k x.
Proof. by []. Qed.

End LoopFacts.

Section TupleSet.

Variables (T : pzRingType) (n : nat).
Implicit Types (t : n.-tuple T) (i k : nat) (v : T).

Lemma nth_tuple_set t i v k :
  (k < n)%N -> (tuple_set t i v)`_k = if k == i then v else t`_k.
Proof.
move=> lt; rewrite -[k]/(nat_of_ord (Ordinal lt)) -!tnth_nth.
by rewrite /tuple_set tnth_mktuple.
Qed.

End TupleSet.

(** Two nested counted loops that write, for each [(i, j)] of a rectangle,
    the value [f i j] at offset [idx i j] of an array. *)
Section Fill.

Variables (T : pzRingType) (n : nat).
Variables (idx : nat -> nat -> nat) (f : nat -> nat -> T).
Variables (top h left w : nat).
Variable body : nat -> nat -> n.-tuple T -> outcome (n.-tuple T).

Let in_rect i j := (top <= i < top + h)%N && (left <= j < left + w)%N.

Hypothesis idx_lt : forall i j, in_rect i j -> (idx i j < n)%N.
Hypothesis idx_inj : forall i j i' j',
  in_rect i j -> in_rect i' j' -> idx i j = idx i' j' -> i = i' /\ j = j'.
Hypothesis bodyE : forall i j t,
  in_rect i j -> body i j t = Done (tuple_set t (idx i j) (f i j)).

(** The cells written when the loops reach [(i0, j0)]. *)
Let written i0 j0 i j :=
  in_rect i j && ((i < i0)%N || ((i == i0) && (j < j0)%N)).

Let inv (t0 : n.-tuple T) i0 j0 (t : n.-tuple T) :=
  (forall i j, written i0 j0 i j -> t`_(idx i j) = f i j) /\
  (forall k, (forall i j, written i0 j0 i j -> idx i j != k) -> t`_k = t0`_k).

Lemma inv_next_row t0 i0 t :
  (top <= i0)%N -> inv t0 i0 (left + w)%N t -> inv t0 i0.+1 left t.
Proof.
move=> le_top [wr un]; split=> [i j wij|k nk].
  apply: wr; move: wij; rewrite /written /in_rect => /andP[rg wij].
  rewrite rg /=; case/andP: rg => _ /andP[lej ltj].
  case/orP: wij => [|/andP[_]]; last by rewrite ltnNge lej.
  by rewrite ltnS leq_eqVlt => /orP[->|->] //; rewrite ltj orbT.
apply: un => i j; rewrite /written => /andP[rg wij]; apply: nk.
rewrite /written rg /=; case/orP: wij => [lt|/andP[/eqP-> _]].
  by rewrite (leq_trans lt).
by rewrite leqnn.
Qed.

Lemma fill_inner t0 i0 t :
  (top <= i0 < top + h)%N -> inv t0 i0 left t ->
  exists2 t', for_loop left w (body i0) t = Done t'
            & inv t0 i0 (left + w)%N t'.
Proof.
move=> rgi invt.
apply: (for_loop_inv (P := inv t0 i0) invt) => j a rgj [wr un].
have rg : in_rect i0 j by rewrite /in_rect rgi.
rewrite bodyE //; eexists; first by [].
split=> [i j' wij|k nk].
  have rg' : in_rect i j' by case/andP: wij.
  rewrite nth_tuple_set ?idx_lt //; case: eqP => [e|ne].
    by have [-> ->] := idx_inj rg' rg e.
  apply: wr; move: wij; rewrite /written => /andP[-> /=].
  case/orP=> [->//|/andP[/eqP ei]]; rewrite ei eqxx /= ltnS leq_eqVlt.
  by case/orP=> [/eqP ej|->]; rewrite ?orbT //; case: ne; rewrite ei ej.
have nk0 : idx i0 j != k.
  by apply: nk; rewrite /written rg eqxx ltnSn orbT.
have [ltk|gek] := ltnP k n; last first.
  by rewrite !nth_default ?size_tuple.
rewrite nth_tuple_set // eq_sym (negbTE nk0); apply: un => i j' wij.
apply: nk; move: wij; rewrite /written => /andP[-> /=].
by case/orP=> [->//|/andP[-> lt]]; rewrite /= ltnS (ltnW lt) orbT.
Qed.

Lemma fill_outer t0 :
  exists2 t', for_loop top h (fun i t => for_loop left w (body i) t) t0
              = Done t'
            & (forall i j, in_rect i j -> t'`_(idx i j) = f i j) /\
              (forall k, (forall i j, in_rect i j -> idx i j != k) ->
                 t'`_k = t0`_k).
Proof.
have [||t' -> [wr un]] := @for_loop_inv _ (fun i t => inv t0 i left t)
    (fun i t => for_loop left w (body i) t) top h t0.
- split=> // i j; rewrite /written /in_rect.
  case/andP=> /andP[/andP[lei _] /andP[lej _]].
  by rewrite ltnNge lei /= [(j < left)%N]ltnNge lej andbF.
- move=> i t rgi invt; have [t' -> invt'] := fill_inner rgi invt.
  by exists t' => //; apply: inv_next_row invt'; case/andP: rgi.
exists t' => //; split=> [i j rg|k nk].
  by apply: wr; rewrite /written rg; case/andP: rg => /andP[_ ->].
by apply: un => i j /andP[rg _]; apply: nk.
Qed.

End Fill.

Section FillBlock.

Variable T : pzRingType.
Variables num_rows num_cols : nat.
Local Notation matrix := (vnl_matrix_fixed T num_rows num_cols).
Local Notation in_range := (Fixed.in_range num_rows num_cols).
Variables (f : nat -> nat -> T) (top h left w : nat).
Variable body : nat -> nat -> matrix -> outcome matrix.

Local Notation in_block := (in_block top h left w).

Hypothesis fits_rows : (top + h <= num_rows)%N.
Hypothesis fits_cols : (left + w <= num_cols)%N.
Hypothesis bodyE : forall i j m,
  in_block i j -> body i j m = Fixed.coeff_set m i j (f i j).

Lemma in_block_range i j : in_block i j -> in_range i j.
Proof.
case/andP=> /andP[_ lti] /andP[_ ltj].
by rewrite /Fixed.in_range (leq_trans lti) ?(leq_trans ltj).
Qed.

Lemma fill_block (m : matrix) :
  for_loop top h (fun i m => for_loop left w (body i) m) m =
  Done (Fixed.of_fun num_rows num_cols
          (fun r c => if in_block r c then f r c else get m r c)).
Proof.
pose idx i j := (i * num_cols + j)%N.
have idx_lt i j : in_block i j -> (idx i j < num_rows * num_cols)%N.
  by move=> /in_block_range/flat_lt.
have idx_inj i j i' j' :
    in_block i j -> in_block i' j' -> idx i j = idx i' j' -> i = i' /\ j = j'.
  move=> /in_block_range/andP[_ ltj] /in_block_range/andP[_ ltj'].
  by move/eqP; rewrite flat_inj // => /andP[/eqP-> /eqP->].
have body_set i j t :
    in_block i j -> body i j t = Done (tuple_set t (idx i j) (f i j)).
  by move=> rg; rewrite bodyE // /Fixed.coeff_set in_block_range.
have [t' -> [wr un]] := fill_outer idx_lt idx_inj body_set m.
apply: congr1; apply: matrix_ext => r c rg; rewrite get_of_fun //.
case: ifP => [/wr //|nb]; rewrite /get; apply: un => i j rgij.
have /andP[_ ltj] := in_block_range rgij; have /andP[_ ltc] := rg.
apply/negP; rewrite flat_inj // => /andP[/eqP ei /eqP ej].
by move: rgij; rewrite -/(in_block i j) ei ej nb.
Qed.

End FillBlock.

(** ** [put], [get] and [empty] *)

Section PutGet.

Variable T : pzRingType.
Variables num_rows num_cols : nat.
Local Notation matrix := (vnl_matrix_fixed T num_rows num_cols).
Local Notation in_range := (Fixed.in_range num_rows num_cols).
Implicit Types (m : matrix) (r c : nat) (v : T) (cb : bool).

Lemma get_in_range cb m r c :
  in_range r c -> Fixed.get cb m r c = Done (get m r c).
Proof.
move=> rg; rewrite /Fixed.get /Fixed.coeff rg.
case/andP: rg => ltr ltc.
by rewrite [(num_rows <= r)%N]leqNgt ltr [(num_cols <= c)%N]leqNgt ltc !andbF.
Qed.

Lemma put_in_range cb m r c v :
  in_range r c ->
  Fixed.put cb m r c v = Done (Fixed.write m (r * num_cols + c) v).
Proof.
move=> rg; rewrite /Fixed.put /Fixed.coeff_set rg.
case/andP: rg => ltr ltc.
by rewrite [(num_rows <= r)%N]leqNgt ltr [(num_cols <= c)%N]leqNgt ltc !andbF.
Qed.

(** Property X7.  What is put at a coefficient of the matrix is what [get]
    returns there, and the other coefficients keep their values, with or
    without the bounds checks compiled in. *)
Theorem get_put cb m r c v :
  in_range r c ->
  exists2 m', Fixed.put cb m r c v = Done m' &
    forall r' c', in_range r' c' ->
      Fixed.get cb m' r' c' =
      if (r' == r) && (c' == c) then Done v else Fixed.get cb m r' c'.
Proof.
move=> rg; rewrite put_in_range //; eexists; first by [].
move=> r' c' rg'; rewrite !get_in_range // get_write //.
have /andP[_ ltc'] := rg'; have /andP[_ ltc] := rg.
by rewrite (flat_inj r' r ltc' ltc); case: ifP.
Qed.

(** Property X8.  With the bounds checks compiled in, [put] and [get] never
    touch a coefficient outside the matrix: a row index out of range is
    reported first, then a column index out of range. *)
Theorem checked_put_get m r c v :
  [/\ (num_rows <= r)%N ->
        Fixed.put true m r c v = Raised (vnl_error_matrix_row_index "put" r)
        /\ Fixed.get true m r c = Raised (vnl_error_matrix_row_index "get" r),
      (r < num_rows)%N -> (num_cols <= c)%N ->
        Fixed.put true m r c v = Raised (vnl_error_matrix_col_index "put" c)
        /\ Fixed.get true m r c = Raised (vnl_error_matrix_col_index "get" c)
    & Fixed.put true m r c v <> Undefined /\ Fixed.get true m r c <> Undefined].
Proof.
split=> [le_r|lt_r le_c|].
- by rewrite /Fixed.put /Fixed.get le_r.
- by rewrite /Fixed.put /Fixed.get [(num_rows <= r)%N]leqNgt lt_r le_c.
rewrite /Fixed.put /Fixed.get /Fixed.coeff_set /Fixed.coeff /Fixed.in_range /=.
by case: leqP => // ltr; case: leqP.
Qed.

(** Property X9.  [empty()] holds exactly when both dimensions are zero.  A
    matrix with no element need not be empty: a matrix with one zero dimension
    has size zero. *)
Theorem empty_size m :
  [/\ Fixed.empty m = (num_rows == 0) && (num_cols == 0),
      Fixed.empty m ==> (Fixed.size m == 0)
    & (Fixed.size m == 0) && ~~ Fixed.empty m
      = ((num_rows == 0) != (num_cols == 0))].
Proof.
rewrite /Fixed.empty /Fixed.size muln_eq0; split=> //.
  by apply/implyP=> /andP[->].
by do 2!case: eqP.
Qed.

End PutGet.

(** ** [transpose] *)

Section Transpose.

Variable T : pzRingType.
Variables num_rows num_cols : nat.
Local Notation matrix := (vnl_matrix_fixed T num_rows num_cols).
Local Notation matrix' := (vnl_matrix_fixed T num_cols num_rows).

Lemma in_block_full rows cols i j :
  in_block 0 rows 0 cols i j = Fixed.in_range rows cols i j.
Proof. by rewrite /in_block /Fixed.in_range !add0n. Qed.

Lemma transposeE (result : matrix') (this : matrix) :
  Fixed.transpose result this =
  Done (Fixed.of_fun num_cols num_rows (fun i j => get this j i)).
Proof.
rewrite /Fixed.transpose /for_range /Fixed.cols /Fixed.rows !subn0.
rewrite (@fill_block _ _ _ (fun i j => get this j i)) ?add0n //.
  move=> i j m; rewrite in_block_full => /andP[lti ltj].
  by rewrite /Fixed.coeff /Fixed.in_range ltj lti.
by apply: congr1; apply: eq_of_fun => r c rg; rewrite in_block_full rg.
Qed.

Lemma to_mx_transposed (this : matrix) :
  to_mx (Fixed.of_fun num_cols num_rows (fun i j => get this j i))
  = (to_mx this)^T.
Proof.
apply/matrixP=> i j; rewrite !mxE get_of_fun //.
by rewrite /Fixed.in_range !ltn_ord.
Qed.

(** Property X10.  The matrix that [transpose] returns is the transpose,
    whatever the local [result] held. *)
Theorem transpose_to_mx (result : matrix') (this : matrix) :
  exists2 t, Fixed.transpose result this = Done t
           & to_mx t = (to_mx this)^T.
Proof.
rewrite transposeE; eexists; first by [].
exact: to_mx_transposed.
Qed.

End Transpose.

(** Property X11.  Calling [transpose] on the result of [transpose] gives the
    matrix back. *)
Theorem transpose_transpose (T : pzRingType) (num_rows num_cols : nat)
    (this result2 : vnl_matrix_fixed T num_rows num_cols)
    (result1 : vnl_matrix_fixed T num_cols num_rows) :
  bind (Fixed.transpose result1 this) (Fixed.transpose result2) = Done this.
Proof.
rewrite !transposeE /= transposeE; apply: congr1.
apply: matrix_ext => r c rg; rewrite get_of_fun // get_of_fun //.
by move: rg; rewrite /Fixed.in_range andbC.
Qed.

(** ** [operator*=] *)

Section Product.

Variable T : pzRingType.
Variables num_rows num_cols : nat.
Local Notation matrix := (vnl_matrix_fixed T num_rows num_cols).
Implicit Types (this out : matrix) (s : vnl_matrix_fixed T num_cols num_cols).

Lemma data_at_get this i k :
  Fixed.in_range num_rows num_cols i k ->
  Fixed.data_at this (i * num_cols + k) = Done (get this i k).
Proof. by move=> /flat_lt lt; rewrite /Fixed.data_at lt. Qed.

Lemma accum_loop this s i j :
  (i < num_rows)%N -> (j < num_cols)%N ->
  for_loop 1 (num_cols - 1) (fun k accum =>
     bind (Fixed.data_at this (i * num_cols + k)) (fun a =>
     bind (Fixed.coeff s k j) (fun b => Done (accum + a * b))))
    (get this i 0 * get s 0 j)
  = Done (\sum_(0 <= k < num_cols) get this i k * get s k j).
Proof.
move=> lti ltj.
have c_gt0 : (0 < num_cols)%N by case: num_cols ltj.
pose P k (acc : T) := acc = \sum_(0 <= k' < k) get this i k' * get s k' j.
have P1 : P 1%N (get this i 0 * get s 0 j) by rewrite /P big_nat1.
have step k acc : (1 <= k < 1 + (num_cols - 1))%N -> P k acc ->
    exists2 acc',
      bind (Fixed.data_at this (i * num_cols + k)) (fun a =>
      bind (Fixed.coeff s k j) (fun b => Done (acc + a * b))) = Done acc'
    & P k.+1 acc'.
  rewrite subnKC // => /andP[k_gt0 ltk] ->.
  have rg : Fixed.in_range num_rows num_cols i k by rewrite /Fixed.in_range lti.
  rewrite (data_at_get _ rg) /= /Fixed.coeff /Fixed.in_range ltk ltj /=.
  by eexists; first by []; rewrite /P big_nat_recr.
have [acc -> Pacc] := for_loop_inv P1 step.
by move: Pacc; rewrite /P subnKC // => ->.
Qed.

Lemma operator_mul_assignE out this s :
  Fixed.operator_mul_assign out this s =
  Done (Fixed.of_fun num_rows num_cols
          (fun i j => \sum_(0 <= k < num_cols) get this i k * get s k j)).
Proof.
rewrite /Fixed.operator_mul_assign /for_range !subn0.
rewrite (@fill_block _ _ _
          (fun i j => \sum_(0 <= k < num_cols) get this i k * get s k j))
        ?add0n //.
  move=> i j m; rewrite in_block_full => /andP[lti ltj].
  have c_gt0 : (0 < num_cols)%N by case: num_cols ltj.
  have rg : Fixed.in_range num_rows num_cols i 0 by rewrite /Fixed.in_range lti.
  have:= data_at_get this rg; rewrite addn0 => -> /=.
  rewrite {1}/Fixed.coeff /Fixed.in_range c_gt0 ltj /=.
  by rewrite accum_loop.
by apply: congr1; apply: eq_of_fun => r c rg; rewrite in_block_full rg.
Qed.

Lemma to_mx_product this s :
  to_mx (Fixed.of_fun num_rows num_cols
           (fun i j => \sum_(0 <= k < num_cols) get this i k * get s k j))
  = to_mx this *m to_mx s.
Proof.
apply/matrixP=> i j; rewrite !mxE get_of_fun ?/Fixed.in_range ?ltn_ord //.
by rewrite big_mkord; apply: eq_bigr => k _; rewrite !mxE.
Qed.

(** Property X12.  [operator*=] returns the matrix product, whatever the local
    [out] held, over any ring. *)
Theorem operator_mul_assign_mulmx out this s :
  exists2 p, Fixed.operator_mul_assign out this s = Done p
           & to_mx p = to_mx this *m to_mx s.
Proof.
rewrite operator_mul_assignE; eexists; first by [].
exact: to_mx_product.
Qed.

End Product.

(** ** Determinants of transposes and of products *)

Section DetCompose.

Variable T : comPzRingType.

Lemma vnl_det_2x2_det (m : vnl_matrix_fixed T 2 2) :
  vnl_det_2x2 m = \det (to_mx m).
Proof.
rewrite /vnl_det_2x2 -det_rows_mx_2.
congr (\det _); apply/matrixP=> i j; rewrite !mxE.
by case: i => [[|[|i]] lti] //=; rewrite operator_index_get.
Qed.

Lemma vnl_det_3x3_det (m : vnl_matrix_fixed T 3 3) :
  vnl_det_3x3 m = \det (to_mx m).
Proof.
rewrite /vnl_det_3x3 -det_rows_mx_3.
congr (\det _); apply/matrixP=> i j; rewrite !mxE.
by case: i => [[|[|[|i]]] lti] //=; rewrite operator_index_get.
Qed.

Lemma vnl_det_4x4_det (m : vnl_matrix_fixed T 4 4) :
  vnl_det_4x4 m = \det (to_mx m).
Proof.
rewrite /vnl_det_4x4 -det_rows_mx_4.
congr (\det _); apply/matrixP=> i j; rewrite !mxE.
by case: i => [[|[|[|[|i]]]] lti] //=; rewrite operator_index_get.
Qed.

(** Property X13.  The determinant of the transpose computed by [transpose] is
    the determinant of the matrix. *)
Theorem vnl_det_transpose :
  [/\ forall result m : vnl_matrix_fixed T 2 2,
        bind (Fixed.transpose result m) (fun t => Done (vnl_det_2x2 t))
        = Done (vnl_det_2x2 m),
      forall result m : vnl_matrix_fixed T 3 3,
        bind (Fixed.transpose result m) (fun t => Done (vnl_det_3x3 t))
        = Done (vnl_det_3x3 m)
    & forall result m : vnl_matrix_fixed T 4 4,
        bind (Fixed.transpose result m) (fun t => Done (vnl_det_4x4 t))
        = Done (vnl_det_4x4 m)].
Proof.
split=> result m; rewrite transposeE bind_Done.
- by rewrite !vnl_det_2x2_det to_mx_transposed det_tr.
- by rewrite !vnl_det_3x3_det to_mx_transposed det_tr.
- by rewrite !vnl_det_4x4_det to_mx_transposed det_tr.
Qed.

(** Property X14.  The determinant of the product computed by [operator*=] is
    the product of the determinants. *)
Theorem vnl_det_operator_mul_assign :
  [/\ forall out m s : vnl_matrix_fixed T 2 2,
        bind (Fixed.operator_mul_assign out m s) (fun p => Done (vnl_det_2x2 p))
        = Done (vnl_det_2x2 m * vnl_det_2x2 s),
      forall out m s : vnl_matrix_fixed T 3 3,
        bind (Fixed.operator_mul_assign out m s) (fun p => Done (vnl_det_3x3 p))
        = Done (vnl_det_3x3 m * vnl_det_3x3 s)
    & forall out m s : vnl_matrix_fixed T 4 4,
        bind (Fixed.operator_mul_assign out m s) (fun p => Done (vnl_det_4x4 p))
        = Done (vnl_det_4x4 m * vnl_det_4x4 s)].
Proof.
split=> out m s; rewrite operator_mul_assignE bind_Done.
- by rewrite !vnl_det_2x2_det to_mx_product det_mulmx.
- by rewrite !vnl_det_3x3_det to_mx_product det_mulmx.
- by rewrite !vnl_det_4x4_det to_mx_product det_mulmx.
Qed.

End DetCompose.

(** ** [flatten_column_major] *)

Section Flatten.

Variable T : pzRingType.
Variables num_rows num_cols : nat.
Local Notation matrix := (vnl_matrix_fixed T num_rows num_cols).
Implicit Types (this : matrix) (v : Fixed.vnl_vector_fixed T (num_rows * num_cols)).

Lemma flatten_column_majorE v this :
  exists2 v', Fixed.flatten_column_major v this = Done v'
            & forall r c, Fixed.in_range num_rows num_cols r c ->
                v'`_(c * num_rows + r) = get this r c.
Proof.
rewrite /Fixed.flatten_column_major /for_range !subn0.
pose idx c r := (c * num_rows + r)%N.
pose f c r := get this r c.
have idx_lt c r : in_block 0 num_cols 0 num_rows c r ->
    (idx c r < num_rows * num_cols)%N.
  by rewrite in_block_full mulnC => /flat_lt.
have idx_inj c r c' r' :
    in_block 0 num_cols 0 num_rows c r -> in_block 0 num_cols 0 num_rows c' r' ->
    idx c r = idx c' r' -> c = c' /\ r = r'.
  rewrite !in_block_full => /andP[_ ltr] /andP[_ ltr'] /eqP.
  by rewrite /idx flat_inj // => /andP[/eqP-> /eqP->].
have body_set c r (t : (num_rows * num_cols).-tuple T) :
    in_block 0 num_cols 0 num_rows c r ->
    bind (Fixed.coeff this r c) (fun x => Fixed.vector_set t (c * num_rows + r) x)
    = Done (tuple_set t (idx c r) (f c r)).
  move=> rg; have lt := idx_lt _ _ rg.
  move: rg; rewrite in_block_full /Fixed.coeff /Fixed.in_range andbC => ->.
  by rewrite /= /Fixed.vector_set lt.
have [v' -> [wr _]] := fill_outer idx_lt idx_inj body_set v.
exists v' => // r c rg; apply: wr.
by rewrite -/(in_block 0 num_cols 0 num_rows c r) in_block_full
           /Fixed.in_range andbC.
Qed.

(** Property X15.  Flattening by columns is flattening by rows the transpose. *)
Theorem flatten_column_major_transpose v this
    (result : vnl_matrix_fixed T num_cols num_rows)
    (v2 : Fixed.vnl_vector_fixed T (num_cols * num_rows)) :
  bind (Fixed.flatten_column_major v this) (fun u => Done (tval u)) =
  bind (Fixed.transpose result this) (fun t =>
    bind (Fixed.flatten_row_major v2 t) (fun u => Done (tval u))).
Proof.
have [v' -> vE] := flatten_column_majorE v this.
rewrite transposeE; set t := Fixed.of_fun _ _ _.
rewrite !bind_Done /Fixed.flatten_row_major ?bind_Done; apply: congr1.
apply: (@eq_from_nth _ 0); first by rewrite !size_tuple mulnC.
move=> k; rewrite size_tuple => ltk.
have r_gt0 : (0 < num_rows)%N by case: num_rows ltk.
have rg : Fixed.in_range num_rows num_cols (k %% num_rows) (k %/ num_rows).
  by rewrite /Fixed.in_range ltn_mod r_gt0 ltn_divLR // mulnC.
rewrite [in LHS](divn_eq k num_rows) vE //.
rewrite [in RHS](divn_eq k num_rows) -/(data t) -/(get t _ _) get_of_fun //.
by move: rg; rewrite /Fixed.in_range andbC.
Qed.

End Flatten.

(** ** [update] *)

Section UpdateFacts.

Variable T : pzRingType.
Variables num_rows num_cols : nat.
Local Notation matrix := (vnl_matrix_fixed T num_rows num_cols).
Local Notation in_range := (Fixed.in_range num_rows num_cols).
Implicit Types (this : matrix) (m_at : nat -> nat -> outcome T).

Lemma for_loop_skip (A : Type) lo n (acc : A) :
  for_loop lo n (fun _ a => Done a) acc = Done acc.
Proof. by elim: n lo => [|n IH] lo //=; rewrite IH. Qed.

(** The two loops of [update] on a block that lies inside the matrix. *)
Lemma update_loops this m_at (f : nat -> nat -> T) top bottom left right :
  (bottom <= num_rows)%N -> (right <= num_cols)%N ->
  (forall i j, (i < bottom - top)%N -> (j < right - left)%N ->
     m_at i j = Done (f i j)) ->
  for_range top bottom (fun i this =>
    for_range left right (fun j this =>
      bind (m_at (i - top)%N (j - left)%N)
           (fun x => Fixed.coeff_set this i j x)) this) this
  = Done (Fixed.of_fun num_rows num_cols (fun r c =>
            if in_block top (bottom - top) left (right - left) r c
            then f (r - top)%N (c - left)%N else get this r c)).
Proof.
move=> le_b le_r m_atE; rewrite /for_range.
have [le_tb|lt_bt] := leqP top bottom; last first.
  have -> : (bottom - top = 0)%N by apply/eqP; rewrite subn_eq0 ltnW.
  rewrite /= -[in LHS](of_fun_get this); apply: congr1; apply: eq_of_fun => r c _.
  by rewrite /in_block addn0 [(r < top)%N]ltnNge andbN.
have [le_lr|lt_rl] := leqP left right; last first.
  have -> : (right - left = 0)%N by apply/eqP; rewrite subn_eq0 ltnW.
  rewrite for_loop_skip -[in LHS](of_fun_get this).
  apply: congr1; apply: eq_of_fun => r c _.
  by rewrite /in_block addn0 [(c < left)%N]ltnNge andbN andbF.
apply: fill_block; rewrite ?subnKC // => i j this'.
rewrite /in_block !subnKC // => /andP[/andP[lei lti] /andP[lej ltj]].
by rewrite m_atE // ltn_subLR // subnKC.
Qed.

Variable uint_range : nat.
Variable vnl_matrix : Type.
Variables vm_rows vm_cols : vnl_matrix -> nat.
Variable vm_get : vnl_matrix -> nat -> nat -> T.
Local Notation update := (Fixed.update uint_range vm_rows vm_cols vm_get).
Local Notation update_fixed := (Fixed.update_fixed uint_range).
Local Notation uadd := (Fixed.uadd uint_range).
Implicit Types (m : vnl_matrix) (ndebug : bool).

(** Property X16.  When the block of [m] at [(top, left)] lies inside the
    matrix, [update] replaces exactly that block by [m], in debug and in
    release builds. *)
Theorem update_block ndebug this m top left :
  (num_rows < uint_range)%N -> (num_cols < uint_range)%N ->
  (top + vm_rows m <= num_rows)%N -> (left + vm_cols m <= num_cols)%N ->
  update ndebug this m top left =
  Done (Fixed.of_fun num_rows num_cols (fun r c =>
          if in_block top (vm_rows m) left (vm_cols m) r c
          then vm_get m (r - top)%N (c - left)%N else get this r c)).
Proof.
move=> ltR ltC fitR fitC; rewrite /Fixed.update /Fixed.update_body /Fixed.uadd.
rewrite !modn_small ?(leq_ltn_trans fitR) ?(leq_ltn_trans fitC) //.
rewrite !ltnNge fitR fitC andbF.
rewrite (@update_loops _ _ (vm_get m)) ?addKn // => i j lti ltj.
by rewrite /Fixed.vm_coeff lti ltj.
Qed.

(** Property X17.  In a debug build [update] either raises the dimension error
    or returns: it never reads or writes outside a matrix, whatever [top] and
    [left], wrap-around of [top + m.rows()] included.  It raises exactly when
    the block, as computed, does not fit. *)
Theorem update_debug this m top left :
  let bottom := uadd top (vm_rows m) in
  let right := uadd left (vm_cols m) in
  if (num_rows < bottom)%N || (num_cols < right)%N then
    update false this m top left =
    Raised (vnl_error_matrix_dimension
              "update" bottom right (vm_rows m) (vm_cols m))
  else exists this', update false this m top left = Done this'.
Proof.
rewrite /= /Fixed.update /Fixed.update_body /=.
set c := (_ || _); case E: c => //; move/negbT: E.
rewrite negb_or -!leqNgt => /andP[le_b le_r].
have leD a b : (uadd a b - a <= b)%N.
  rewrite leq_subLR /Fixed.uadd; case: uint_range => [|u] //.
  exact: leq_mod.
have rd i j : (i < uadd top (vm_rows m) - top)%N ->
    (j < uadd left (vm_cols m) - left)%N ->
    Fixed.vm_coeff vm_rows vm_cols vm_get m i j = Done (vm_get m i j).
  move=> lti ltj; rewrite /Fixed.vm_coeff.
  by rewrite (leq_trans lti) ?(leq_trans ltj).
by rewrite (update_loops _ le_b le_r rd); eexists.
Qed.

(** Property X18.  The overload that takes a matrix of the same fixed size can
    only replace the whole matrix: at [(0, 0)] it returns [m]; with a positive
    [top] or [left] a debug build raises the dimension error. *)
Theorem update_fixed_same_size this (m' : matrix) :
  (num_rows < uint_range)%N -> (num_cols < uint_range)%N ->
  [/\ forall ndebug, update_fixed ndebug this m' 0 0 = Done m',
      forall top left, (0 < top)%N -> (top + num_rows < uint_range)%N ->
        update_fixed false this m' top left =
        Raised (vnl_error_matrix_dimension
                  "update" (top + num_rows) (uadd left num_cols)
                  num_rows num_cols)
    & forall top left, (0 < left)%N -> (left + num_cols < uint_range)%N ->
        update_fixed false this m' top left =
        Raised (vnl_error_matrix_dimension
                  "update" (uadd top num_rows) (left + num_cols)
                  num_rows num_cols)].
Proof.
move=> ltR ltC; rewrite /Fixed.update_fixed /Fixed.update_body /Fixed.uadd.
rewrite /Fixed.rows /Fixed.cols; split=> [ndebug|top left top_gt0 lt|top left left_gt0 lt].
- rewrite !add0n !modn_small // !ltnn andbF.
  have rd i j : (i < num_rows - 0)%N -> (j < num_cols - 0)%N ->
      Fixed.coeff m' i j = Done (get m' i j).
    by rewrite !subn0 /Fixed.coeff /Fixed.in_range => -> ->.
  rewrite (update_loops _ (leqnn _) (leqnn _) rd) -[in RHS](of_fun_get m').
  apply: congr1; apply: eq_of_fun => r c rg.
  by rewrite !subn0 in_block_full rg.
- by rewrite (modn_small lt) -[X in (X < _)%N]add0n ltn_add2r top_gt0.
- rewrite (modn_small lt) -[X in _ || (X < _)%N]add0n ltn_add2r left_gt0.
  by rewrite orbT.
Qed.

End UpdateFacts.

(** * The helper routines on memory *)

(** Linear arithmetic on [nat] with the boolean comparisons. *)
Ltac nat_hyps :=
  repeat match goal with
  | H : is_true (_ && _) |- _ =>
      let h1 := fresh in let h2 := fresh in
      destruct (andP H) as [h1 h2]; clear H
  | H : is_true (_ || _) |- _ =>
      let h := fresh in destruct (orP H) as [h|h]; clear H
  | H : is_true (leq _ _) |- _ => move/ssrnat.leP in H
  | H : is_true (@eq_op _ _ _) |- _ => move/eqP in H
  | H : is_true (~~ (@eq_op _ _ _)) |- _ => move/eqP in H
  | H : leq _ _ = false |- _ => move/ssrnat.leP in H
  | H : @eq_op _ _ _ = false |- _ => move/eqP in H
  end.

Ltac nat_unfold :=
  unfold addn, subn, muln, addn_rec, subn_rec, muln_rec in *.

Ltac nat_lia :=
  nat_hyps;
  first [ nat_unfold; lia
        | exfalso; nat_unfold; lia
        | apply/ssrnat.leP; nat_unfold; lia
        | apply/eqP; nat_unfold; lia ].

Section RoutineFacts.

Variable T : pzRingType.
Local Notation memory := (Mem.memory T).
Implicit Types (s : memory) (a b r p x : nat) (op : T -> T -> T).

Lemma loop_ppE op n a b r s x :
  not_ahead n r a -> not_ahead n r b ->
  (Helpers.loop_pp op n a b r s).2 x =
  if (r <= x < r + n)%N then op (s (a + (x - r))%N) (s (b + (x - r))%N)
  else s x.
Proof.
elim: n a b r s => [|n IH] a b r s oka okb /=.
  by rewrite addn0; case: ifP => // /andP[le lt]; nat_lia.
have oka' : not_ahead n r.+1 a.+1.
  by move: oka; rewrite /not_ahead => /orP[h|h]; apply/orP; [left|right]; nat_lia.
have okb' : not_ahead n r.+1 b.+1.
  by move: okb; rewrite /not_ahead => /orP[h|h]; apply/orP; [left|right]; nat_lia.
rewrite /Mem.bind /Mem.load /Helpers.store /= !addn0 IH //.
have [ex|nex] := eqVneq x r.
  by rewrite ex ltnn /= leqnn -[X in (X < _)%N]addn0 ltn_add2l /= subnn !addn0.
have -> : (r < x < r.+1 + n)%N = (r <= x < r + n.+1)%N.
  by rewrite addSnnS [(r <= x)%N]leq_eqVlt [r == x]eq_sym (negbTE nex).
case: ifP => [/andP[ltx ltn]|//].
have -> : (a.+1 + (x - r.+1) = a + (x - r))%N by nat_lia.
have -> : (b.+1 + (x - r.+1) = b + (x - r))%N by nat_lia.
have /negbTE-> : (a + (x - r) != r)%N.
  by apply/eqP=> e; rewrite /not_ahead in oka; nat_lia.
have /negbTE-> // : (b + (x - r) != r)%N.
by apply/eqP=> e; rewrite /not_ahead in okb; nat_lia.
Qed.

Lemma loop_psE op n a (b : T) r s x :
  not_ahead n r a ->
  (Helpers.loop_ps op n a b r s).2 x =
  if (r <= x < r + n)%N then op (s (a + (x - r))%N) b else s x.
Proof.
elim: n a r s => [|n IH] a r s oka /=.
  by rewrite addn0; case: ifP => // /andP[le lt]; nat_lia.
have oka' : not_ahead n r.+1 a.+1.
  by move: oka; rewrite /not_ahead => /orP[h|h]; apply/orP; [left|right]; nat_lia.
rewrite /Mem.bind /Mem.load /Helpers.store /= !addn0 IH //.
have [ex|nex] := eqVneq x r.
  by rewrite ex ltnn /= leqnn -[X in (X < _)%N]addn0 ltn_add2l /= subnn !addn0.
have -> : (r < x < r.+1 + n)%N = (r <= x < r + n.+1)%N.
  by rewrite addSnnS [(r <= x)%N]leq_eqVlt [r == x]eq_sym (negbTE nex).
case: ifP => [/andP[ltx ltn]|//].
have -> : (a.+1 + (x - r.+1) = a + (x - r))%N by nat_lia.
have /negbTE-> // : (a + (x - r) != r)%N.
by apply/eqP=> e; rewrite /not_ahead in oka; nat_lia.
Qed.

Lemma loop_spE op n (a : T) b r s x :
  not_ahead n r b ->
  (Helpers.loop_sp op n a b r s).2 x =
  if (r <= x < r + n)%N then op a (s (b + (x - r))%N) else s x.
Proof.
elim: n b r s => [|n IH] b r s okb /=.
  by rewrite addn0; case: ifP => // /andP[le lt]; nat_lia.
have okb' : not_ahead n r.+1 b.+1.
  by move: okb; rewrite /not_ahead => /orP[h|h]; apply/orP; [left|right]; nat_lia.
rewrite /Mem.bind /Mem.load /Helpers.store /= !addn0 IH //.
have [ex|nex] := eqVneq x r.
  by rewrite ex ltnn /= leqnn -[X in (X < _)%N]addn0 ltn_add2l /= subnn !addn0.
have -> : (r < x < r.+1 + n)%N = (r <= x < r + n.+1)%N.
  by rewrite addSnnS [(r <= x)%N]leq_eqVlt [r == x]eq_sym (negbTE nex).
case: ifP => [/andP[ltx ltn]|//].
have -> : (b.+1 + (x - r.+1) = b + (x - r))%N by nat_lia.
have /negbTE-> // : (b + (x - r) != r)%N.
by apply/eqP=> e; rewrite /not_ahead in okb; nat_lia.
Qed.

Lemma equal_loopE n a b s :
  Helpers.equal_loop n a b s = (Mem.row_at s a n == Mem.row_at s b n, s).
Proof.
elim: n a b => [|n IH] a b //=.
rewrite /Mem.bind /Mem.load /= /Mem.row_at /mkseq /= !addn0 eqseq_cons.
case: eqP => _ //=; rewrite IH /Mem.row_at /mkseq; congr (_ == _, s).
  by rewrite -[1%N]addn0 iotaDl -map_comp; apply: eq_map => i /=; rewrite addSnnS.
by rewrite -[1%N]addn0 iotaDl -map_comp; apply: eq_map => i /=; rewrite addSnnS.
Qed.

Lemma same_or_apart_not_ahead n p q : same_or_apart n p q -> not_ahead n p q.
Proof.
rewrite /same_or_apart /not_ahead => /or3P[/eqP->|h|h]; apply/orP.
- by left.
- by left; nat_lia.
- by right.
Qed.

End RoutineFacts.

Section RoutineTheorems.

Variable T : pzRingType.
Variables nrows ncols : nat.
Local Notation n := (nrows * ncols)%N.
Local Notation memory := (Mem.memory T).
Implicit Types (s : memory) (a b r p q x : nat).

(** Property X19.  [add], [sub] and [mul] on two blocks store the sums,
    differences and products of the cells in the output block and change no
    other cell, provided the output pointer does not point into an input block
    past its first cell; the output block may be an input block. *)
Theorem helpers_pointer_pointer a b r s x :
  not_ahead n r a -> not_ahead n r b ->
  let inside := (r <= x < r + n)%N in
  let u := s (a + (x - r))%N in
  let v := s (b + (x - r))%N in
  [/\ (Helpers.add_pp nrows ncols a b r s).2 x = if inside then u + v else s x,
      (Helpers.sub_pp nrows ncols a b r s).2 x = if inside then u - v else s x
    & (Helpers.mul_pp nrows ncols a b r s).2 x = if inside then u * v else s x].
Proof. by move=> oka okb; split; rewrite loop_ppE. Qed.

(** Property X20.  [add], [sub] and [mul] with a scalar operand store the sum,
    difference or product of each cell and the scalar in the output block and
    change no other cell, under the same condition on the output pointer. *)
Theorem helpers_pointer_scalar a (k : T) r s x :
  not_ahead n r a ->
  let inside := (r <= x < r + n)%N in
  let u := s (a + (x - r))%N in
  [/\ (Helpers.add_ps nrows ncols a k r s).2 x = if inside then u + k else s x,
      (Helpers.sub_ps nrows ncols a k r s).2 x = if inside then u - k else s x,
      (Helpers.sub_sp nrows ncols k a r s).2 x = if inside then k - u else s x
    & (Helpers.mul_ps nrows ncols a k r s).2 x = if inside then u * k else s x].
Proof. by move=> oka; split; rewrite ?loop_psE ?loop_spE. Qed.

(** Property X21.  [equal] returns whether the two blocks hold the same
    elements, and writes nothing; [operator==] is that answer and [operator!=]
    its negation. *)
Theorem equal_blocks a b s :
  let same := Mem.row_at s a n == Mem.row_at s b n in
  [/\ Helpers.equal nrows ncols a b s = (same, s),
      Helpers.operator_equal nrows ncols a b s = (same, s)
    & Helpers.operator_not_equal nrows ncols a b s = (~~ same, s)].
Proof.
by split; rewrite /Helpers.operator_not_equal /Helpers.operator_equal
                  /Helpers.operator_eq /Helpers.equal /Mem.bind equal_loopE.
Qed.

Lemma operator_add_assignE p q s x :
  same_or_apart n p q ->
  (Helpers.operator_add_assign nrows ncols p q s).2 x =
  if (p <= x < p + n)%N then s x + s (q + (x - p))%N else s x.
Proof.
move=> sa; have oka : not_ahead n p p by rewrite /not_ahead leqnn.
have okb := same_or_apart_not_ahead sa.
rewrite /Helpers.operator_add_assign /Helpers.add_pp (loop_ppE _ _ _ oka okb).
by case: ifP => // /andP[le _]; rewrite subnKC.
Qed.

(** Property X22.  [m += m2] adds [m2] to [m] in place, for [m2] another
    matrix or [m] itself, and leaves every cell outside [m] as it was. *)
Theorem operator_add_assign_in_place p q s x :
  same_or_apart n p q ->
  (Helpers.operator_add_assign nrows ncols p q s).2 x =
  if (p <= x < p + n)%N then s x + s (q + (x - p))%N else s x.
Proof. exact: operator_add_assignE. Qed.


(** Property X24.  Unary minus stores the opposite of each element in the
    result. *)
Theorem operator_neg_opp r p s x :
  not_ahead n r p ->
  (Helpers.operator_neg nrows ncols r p s).2 x =
  if (r <= x < r + n)%N then - s (p + (x - r))%N else s x.
Proof.
move=> ok; rewrite /Helpers.operator_neg /Helpers.sub_sp (loop_spE _ _ _ _ ok).
by rewrite sub0r.
Qed.

End RoutineTheorems.

(** * Instances *)

Lemma get_put_witness :
  Fixed.in_range 2 2 1 0 /\
  exists2 m', Fixed.put true sample_2x2 1 0 9%Z = Done m' &
    forall r' c', Fixed.in_range 2 2 r' c' ->
      Fixed.get true m' r' c' =
      if (r' == 1%N) && (c' == 0%N) then Done 9%Z
      else Fixed.get true sample_2x2 r' c'.
Proof.
split; first by [].
exact: (@get_put _ 2 2 true sample_2x2 1 0 9%Z isT).
Defined.

Lemma checked_put_get_witness :
  (2 <= 5)%N /\
  Fixed.put true sample_2x2 5 0 9%Z
  = Raised (vnl_error_matrix_row_index "put" 5).
Proof.
split; first by [].
have [row _ _] := checked_put_get sample_2x2 5 0 9%Z.
by have [] := row isT.
Defined.

Lemma helpers_pointer_pointer_witness :
  [/\ not_ahead 4 0 0, not_ahead 4 0 4
    & (Helpers.add_pp 2 2 0 4 0 mem_a).2 1%N = mem_a 1%N + mem_a 5%N].
Proof.
split; [by [] | by [] | ].
have [add _ _] := @helpers_pointer_pointer _ 2 2 0 4 0 mem_a 1 isT isT.
exact: add.
Defined.

Lemma helpers_pointer_scalar_witness :
  not_ahead 4 0 0 /\
  (Helpers.sub_sp 2 2 10%Z 0 0 mem_a).2 1%N = 10%Z - mem_a 1%N.
Proof.
split; first by [].
have [_ _ sub _] := @helpers_pointer_scalar _ 2 2 0 10%Z 0 mem_a 1 isT.
exact: sub.
Defined.

Lemma operator_add_assign_in_place_witness :
  same_or_apart 4 0 0 /\
  (Helpers.operator_add_assign 2 2 0 0 mem_a).2 1%N = mem_a 1%N + mem_a 1%N.
Proof.
split; first by [].
exact: (@operator_add_assign_in_place _ 2 2 0 0 mem_a 1 isT).
Defined.


Lemma operator_neg_opp_witness :
  not_ahead 4 8 0 /\
  (Helpers.operator_neg 2 2 8 0 mem_a).2 9%N = - mem_a 1%N.
Proof.
split; first by [].
exact: (@operator_neg_opp _ 2 2 8 0 mem_a 9 isT).
Defined.

Lemma update_block_witness :
  [/\ (2 < 65536)%N, (1 + dyn_rows sample_dyn <= 2)%N,
      (0 + dyn_cols sample_dyn <= 2)%N
    & Fixed.update 65536 dyn_rows dyn_cols dyn_get true sample_2x2
        sample_dyn 1 0
      = Done (Fixed.of_fun 2 2 (fun r c =>
                if in_block 1 1 0 2 r c then 7%Z else get sample_2x2 r c))].
Proof.
split; [by [] | by [] | by [] | ].
exact: (@update_block _ 2 2 65536 _ dyn_rows dyn_cols dyn_get true
          sample_2x2 sample_dyn 1 0 isT isT isT isT).
Defined.

Lemma update_fixed_same_size_witness :
  (2 < 65536)%N /\
  Fixed.update_fixed 65536 false sample_2x2 sample_2x2 1 0
  = Raised (vnl_error_matrix_dimension "update" 3 2 2 2).
Proof.
split; first by [].
have [_ raised _] := @update_fixed_same_size _ 2 2 65536 sample_2x2 sample_2x2
                       isT isT.
exact: (raised 1%N 0%N isT isT).
Defined.
